(** * The multi-criteria contraction-hierarchy builder

    Source: [src/multi_lib/contractor.cpp].

    A shallow embedding of [contractor.cpp]: the shortest-path probe
    [checkShortestPath], the per-worker witness search of [ContractingThread]
    ([isDominated], [testConfig], [dedupConstraints], the loop of
    [operator()]), and the level driver of [Contractor] ([createShortcut],
    [independentSet], [reduce], [contract], [contractCompletely]).

    Conventions of the embedding.
    - [double] is read as an exact rational ([Qc], canonical fractions with
      Leibniz equality): no rounding, no NaN, no infinities.
    - [size_t] counters are [N] with their 64-bit wrap-around written out;
      positions in a vector ([NodePos]) and ids are [nat].
    - A [std::set<NodePos>] is a [gset nat]; a [std::vector] is a [list].
    - A member function that mutates the thread takes the thread record and
      returns the new one; a function that may throw returns a [result].
    - The collaborators whose code is not in this file (the Dijkstra probe,
      the edge registry, [Cost]'s equality) are the fields of the class
      [Externals], the LP solver is [LpSolver]; the two compile-time
      constants [Cost::dim] and [COST_ACCURACY] are the class [CostParams];
      the graph's adjacency, the worker pool and the registry's writes are
      [LevelExternals]. *)

From Stdlib Require Import QArith Qcanon Qround Qabs Qcabs.
From stdpp Require Import base numbers list sorting gmap strings.

Local Open Scope Z_scope.
Local Open Scope nat_scope.

(** ** Machine integers *)

Module SizeT.
Definition modulus : N := (2 ^ 64)%N.
Definition wrap (n : N) : N := (n mod modulus)%N.
(** [++n] on a [size_t] *)
Definition incr (n : N) : N := wrap (n + 1).
(** [a * b] on [size_t] *)
Definition mul (a b : N) : N := wrap (a * b).
(** [v.size()] of a vector held as a list *)
Definition of_length {A} (l : list A) : N := wrap (N.of_nat (length l)).
End SizeT.

(** ** Data model *)

Definition NodePos := nat.
Definition NodeId := nat.
Definition EdgeId := nat.

(** [struct Cost { std::array<double, dim> values; }] *)
Record Cost := mkCost { values : list Qc }.

(** [struct Config { std::vector<double> values; }] *)
Record Config := mkConfig { cvalues : list Qc }.

(** [c.values[i]]: position [i] of the array *)
Definition at_ (l : list Qc) (i : nat) : Qc := nth i l 0%Qc.

Record HalfEdge := mkHalfEdge {
  he_id : EdgeId;
  he_begin : NodePos;
  he_end : NodePos;
  he_cost : Cost
}.

Record EdgePair := mkEdgePair { p_in : HalfEdge; p_out : HalfEdge }.

(** The part of [class Edge] that this file reads and writes. *)
Record Edge := mkEdge {
  internalId : EdgeId;
  source : NodeId;
  destination : NodeId;
  cost : Cost;
  edgeA : option EdgeId;
  edgeB : option EdgeId;
  sourcePos : NodePos;
  destPos : NodePos
}.

Record RouteWithCount := mkRoute {
  costs : Cost;
  edges : list EdgeId;
  pathCount : N
}.

Record Node := mkNode { node_id : NodeId; node_level : N }.

#[global] Instance Cost_eq_dec : EqDecision Cost.
Proof. solve_decision. Defined.
#[global] Instance Config_eq_dec : EqDecision Config.
Proof. solve_decision. Defined.
#[global] Instance HalfEdge_eq_dec : EqDecision HalfEdge.
Proof. solve_decision. Defined.
#[global] Instance Edge_eq_dec : EqDecision Edge.
Proof. solve_decision. Defined.
#[global] Instance RouteWithCount_eq_dec : EqDecision RouteWithCount.
Proof. solve_decision. Defined.
#[global] Instance Node_eq_dec : EqDecision Node.
Proof. solve_decision. Defined.

(** [std::invalid_argument(what)] *)
Inductive exception := invalid_argument (what : string).

(** The outcome of a call that may throw. *)
Inductive result (A : Type) :=
  | Ok (a : A)
  | Throw (e : exception).
Arguments Ok {A} a.
Arguments Throw {A} e.

#[global] Instance result_ret : MRet result := λ A a, Ok a.

#[global] Instance result_fmap : FMap result := λ A B f r,
  match r with
  | Ok a => Ok (f a)
  | Throw e => Throw e
  end.

#[global] Instance result_bind : MBind result := λ A B k r,
  match r with
  | Ok a => k a
  | Throw e => Throw e
  end.

(** ** The collaborators that are not in this file *)

(** The two compile-time constants. *)
Class CostParams := {
  (** [Cost::dim] *)
  dim : nat;
  (** [COST_ACCURACY] *)
  COST_ACCURACY : Qc
}.

Class Externals := {
  (** [Cost::operator==] *)
  cost_eqb : Cost → Cost → bool;
  (** [NormalDijkstra::findBestRoute(from, to, config)] on the level's graph *)
  findBestRoute : NodePos → NodePos → Config → option RouteWithCount;
  (** [Edge::getEdge(id)] and [Edge::getMutEdge(id)] *)
  getEdge : EdgeId → Edge;
  (** [Edge::external_id()], used in an error message only *)
  external_id : Edge → string
}.

(** [ContractionLp]: the solver's state and its three operations. *)
Class LpSolver := {
  LpState : Type;
  lp_addConstraint : LpState → list Qc → LpState;
  lp_solve : LpState → bool * LpState;
  lp_variableValues : LpState → list Qc
}.

(** ** Cost arithmetic *)

Section cost_ops.
Context {cp : CostParams}.

(** Modelled from the spec: [Cost::operator+], missing from the sources;
    the spec calls it pointwise. *)
Definition cost_add (a b : Cost) : Cost :=
  mkCost (map (λ i, at_ (values a) i + at_ (values b) i)%Qc (seq 0 dim)).

(** Modelled from the spec: [Cost::operator-], missing from the sources;
    the spec calls it pointwise. *)
Definition cost_sub (a b : Cost) : Cost :=
  mkCost (map (λ i, at_ (values a) i - at_ (values b) i)%Qc (seq 0 dim)).

(** Modelled from the spec: [Cost::operator*(Config)], missing from the
    sources; the spec calls it the scalar dot-product with a [Config]. *)
Definition cost_dot (a : Cost) (c : Config) : Qc :=
  foldr Qcplus 0%Qc
    (map (λ i, at_ (values a) i * at_ (cvalues c) i)%Qc (seq 0 dim)).

(** Modelled from the spec: [Config::operator==], missing from the
    sources; the spec says two configs are equal iff their components
    agree exactly. *)
Definition config_eqb (a b : Config) : bool :=
  bool_decide (cvalues a = cvalues b).

(** Two readings of [Cost::operator==], which is not in the sources: the
    components agree exactly, or they agree within [COST_ACCURACY] (the
    spec's data model says the tolerance governs equality of costs). They
    are used to run the definitions, never in a general statement. *)
Definition cost_eq_exact (a b : Cost) : bool :=
  forallb (λ i, bool_decide (at_ (values a) i = at_ (values b) i)) (seq 0 dim).

Definition cost_eq_tolerant (a b : Cost) : bool :=
  forallb (λ i,
    bool_decide
      (Qcabs (at_ (values a) i - at_ (values b) i) ≤ COST_ACCURACY)%Qc)
    (seq 0 dim).

(** [std::vector<double>(Cost::dim, 1.0 / Cost::dim)] *)
Definition uniform_config : Config :=
  mkConfig (replicate dim (1 / Q2Qc (inject_Z (Z.of_nat dim)))%Qc).

(** [std::vector<double> values(Cost::dim, 0); values[i] = 1;] *)
Definition axis_config (i : nat) : Config :=
  mkConfig (<[i := 1%Qc]> (replicate dim 0%Qc)).
End cost_ops.

(** ** StatisticsCollector *)

Module StatisticsCollector.
Inductive CountType := shortestPath | repeatingConfig | unknownReason.

Record t := mk {
  active : bool;
  shortCount : N;
  sameCount : N;
  unknown : N;
  lpMax : N;
  constMax : N
}.

Definition init (active : bool) : t := mk active 0 0 0 0 0.

Definition countShortcut (ty : CountType) (s : t) : t :=
  match ty with
  | shortestPath =>
      mk (active s) (SizeT.incr (shortCount s)) (sameCount s) (unknown s)
         (lpMax s) (constMax s)
  | repeatingConfig =>
      mk (active s) (shortCount s) (SizeT.incr (sameCount s)) (unknown s)
         (lpMax s) (constMax s)
  | unknownReason =>
      mk (active s) (shortCount s) (sameCount s) (SizeT.incr (unknown s))
         (lpMax s) (constMax s)
  end.

Definition recordMaxValues (lpCalls constraints : N) (s : t) : t :=
  mk (active s) (shortCount s) (sameCount s) (unknown s)
     (N.max lpCalls (lpMax s)) (N.max constraints (constMax s)).
End StatisticsCollector.

(** ** checkShortestPath *)

Section probe.
Context {cp : CostParams} {ext : Externals}.

Definition checkShortestPath (startEdge destEdge : HalfEdge) (conf : Config)
  : bool * option RouteWithCount :=
  let foundRoute := findBestRoute (he_end startEdge) (he_end destEdge) conf in
  match foundRoute with
  | None => (false, foundRoute)
  | Some route =>
      let shortcutCost := cost_add (he_cost startEdge) (he_cost destEdge) in
      let isShortest := cost_eqb (costs route) shortcutCost in
      (isShortest, foundRoute)
  end.

(** Modelled from the spec: the constructor [Edge{source, dest, edgeA,
    edgeB}], missing from the sources; the spec's shortcut is an edge that
    references two child edge ids. The fields the four arguments do not
    determine are zero. *)
Definition Edge_new (s d : NodeId) (a b : EdgeId) : Edge :=
  mkEdge 0 s d (mkCost (replicate dim 0%Qc)) (Some a) (Some b) 0 0.

Definition setCost (c : Cost) (e : Edge) : Edge :=
  mkEdge (internalId e) (source e) (destination e) c (edgeA e) (edgeB e)
    (sourcePos e) (destPos e).

(** [Contractor::createShortcut] *)
Definition createShortcut (e1 e2 : Edge) : result Edge :=
  if bool_decide (destination e1 ≠ source e2) then
    Throw (invalid_argument
      ("Edges " +:+ external_id e1 +:+ " and " +:+ external_id e2
         +:+ " are not connected"))
  else
    let shortcut := Edge_new (source e1) (destination e2)
                      (internalId e1) (internalId e2) in
    Ok (setCost (cost_add (cost e1) (cost e2)) shortcut).

End probe.

(** ** Generic pieces of the C++ standard library *)

(** [std::unique(first, last, p)]: an element is dropped when [p] holds of
    the last element kept and it. *)
Fixpoint unique_from {A} (p : A → A → bool) (prev : A) (l : list A)
  : list A :=
  match l with
  | [] => []
  | x :: l' =>
      if p prev x then unique_from p prev l' else x :: unique_from p x l'
  end.

Definition unique {A} (p : A → A → bool) (l : list A) : list A :=
  match l with
  | [] => []
  | x :: l' => x :: unique_from p x l'
  end.

(** [operator<] of two [std::array<double, dim>]
    ([std::lexicographical_compare]). *)
Fixpoint lex_ltb (a b : list Qc) : bool :=
  match a, b with
  | _, [] => false
  | [], _ :: _ => true
  | x :: a', y :: b' =>
      if bool_decide (x < y)%Qc then true
      else if bool_decide (y < x)%Qc then false
      else lex_ltb a' b'
  end.

(** [std::sort(first, last, comp)]: the list ordered so that no element
    precedes one that [comp] puts before it. *)
Definition not_after {A} (comp : A → A → bool) : relation A :=
  λ a b, comp b a = false.

#[global] Instance not_after_dec {A} (comp : A → A → bool) :
  RelDecision (not_after comp).
Proof. intros a b. unfold not_after. apply _. Defined.

Definition sort_by {A} (comp : A → A → bool) (l : list A) : list A :=
  merge_sort (not_after comp) l.

(** ** ContractingThread *)

Section thread.
Context {cp : CostParams} {ext : Externals} {lps : LpSolver}.

(** The members of the thread that its methods write. The queue, the graph
    and the selected set are references the thread only reads; the set is
    the argument [iset] of the methods below. *)
Record ContractingThread := mkThread {
  stats : StatisticsCollector.t;
  config : Config;
  lp : LpState;
  in_ : HalfEdge;
  out_ : HalfEdge;
  lpCount : N;
  shortcuts : list Edge;
  shortcutCost : Cost;
  currentCost : Cost;
  constraints : list Cost;
  route : RouteWithCount
}.

Definition set_stats (v : StatisticsCollector.t) (t : ContractingThread) :=
  mkThread v (config t) (lp t) (in_ t) (out_ t) (lpCount t) (shortcuts t)
    (shortcutCost t) (currentCost t) (constraints t) (route t).
Definition set_config (v : Config) (t : ContractingThread) :=
  mkThread (stats t) v (lp t) (in_ t) (out_ t) (lpCount t) (shortcuts t)
    (shortcutCost t) (currentCost t) (constraints t) (route t).
Definition set_lp (v : LpState) (t : ContractingThread) :=
  mkThread (stats t) (config t) v (in_ t) (out_ t) (lpCount t) (shortcuts t)
    (shortcutCost t) (currentCost t) (constraints t) (route t).
Definition set_in_out (i o : HalfEdge) (t : ContractingThread) :=
  mkThread (stats t) (config t) (lp t) i o (lpCount t) (shortcuts t)
    (shortcutCost t) (currentCost t) (constraints t) (route t).
Definition set_lpCount (v : N) (t : ContractingThread) :=
  mkThread (stats t) (config t) (lp t) (in_ t) (out_ t) v (shortcuts t)
    (shortcutCost t) (currentCost t) (constraints t) (route t).
Definition set_shortcuts (v : list Edge) (t : ContractingThread) :=
  mkThread (stats t) (config t) (lp t) (in_ t) (out_ t) (lpCount t) v
    (shortcutCost t) (currentCost t) (constraints t) (route t).
Definition set_shortcutCost (v : Cost) (t : ContractingThread) :=
  mkThread (stats t) (config t) (lp t) (in_ t) (out_ t) (lpCount t)
    (shortcuts t) v (currentCost t) (constraints t) (route t).
Definition set_currentCost (v : Cost) (t : ContractingThread) :=
  mkThread (stats t) (config t) (lp t) (in_ t) (out_ t) (lpCount t)
    (shortcuts t) (shortcutCost t) v (constraints t) (route t).
Definition set_constraints (v : list Cost) (t : ContractingThread) :=
  mkThread (stats t) (config t) (lp t) (in_ t) (out_ t) (lpCount t)
    (shortcuts t) (shortcutCost t) (currentCost t) v (route t).
Definition set_route (v : RouteWithCount) (t : ContractingThread) :=
  mkThread (stats t) (config t) (lp t) (in_ t) (out_ t) (lpCount t)
    (shortcuts t) (shortcutCost t) (currentCost t) (constraints t) v.

(** The [for] loop of [isDominated], [n] components left from index [i];
    it returns the two flags, [(dominated, someDifferent)]. *)
Fixpoint isDominated_loop (n i : nat) (costs sc : Cost)
    (dominated someDifferent : bool) : bool * bool :=
  match n with
  | 0 => (dominated, someDifferent)
  | S n' =>
      if bool_decide (at_ (values sc) i < at_ (values costs) i)%Qc
      then (false, true)
      else
        isDominated_loop n' (S i) costs sc dominated
          (if bool_decide (at_ (values costs) i ≠ at_ (values sc) i)
           then true else someDifferent)
  end.

Definition isDominated (t : ContractingThread) (costs : Cost) : bool :=
  let '(dominated, someDifferent) :=
    isDominated_loop dim 0 costs (shortcutCost t) true false in
  dominated && someDifferent.

Definition addConstraint (costs : Cost) (t : ContractingThread)
  : ContractingThread :=
  let newCost := cost_sub costs (shortcutCost t) in
  set_lp (lp_addConstraint (lp t) (values newCost)) t.

Definition recordMax (t : ContractingThread) : ContractingThread :=
  set_stats
    (StatisticsCollector.recordMaxValues (lpCount t)
       (SizeT.of_length (constraints t)) (stats t)) t.

Definition storeShortcut (ty : StatisticsCollector.CountType)
    (t : ContractingThread) : result ContractingThread :=
  let t1 := set_stats (StatisticsCollector.countShortcut ty (stats t)) t in
  let t2 := recordMax t1 in
  e ← createShortcut (getEdge (he_id (in_ t2))) (getEdge (he_id (out_ t2)));
  mret (set_shortcuts (shortcuts t2 ++ [e]) t2).

(** The thread as its constructor leaves it: the statistics switched by
    [printStatistics], the uniform config, and the other members
    value-initialised. *)
Definition new_thread (printStatistics : bool) (lp0 : LpState)
  : ContractingThread :=
  let h0 := mkHalfEdge 0 0 0 (mkCost (replicate dim 0%Qc)) in
  let c0 := mkCost (replicate dim 0%Qc) in
  mkThread (StatisticsCollector.init printStatistics) uniform_config lp0
    h0 h0 0%N [] c0 c0 [] (mkRoute c0 [] 0%N).

(** The lambda of [testConfig]: the destination of an edge of the route is
    in the selected set. *)
Definition dest_selected (iset : gset NodePos) (id : EdgeId) : bool :=
  bool_decide (destPos (getEdge id) ∈ iset).

Definition testConfig (iset : gset NodePos) (c : Config)
    (t : ContractingThread) : result (bool * ContractingThread) :=
  let '(isShortest, foundRoute) := checkShortestPath (in_ t) (out_ t) c in
  match foundRoute with
  | None => mret (true, recordMax t)
  | Some r =>
      if bool_decide (edges r = []) then mret (true, recordMax t)
      else
        let t1 := set_currentCost (costs r) t in
        let t2 := set_route r t1 in
        let t3 := set_constraints (constraints t2 ++ [currentCost t2]) t2 in
        if isShortest then
          if bool_decide (pathCount (route t3) = 1%N)
             || existsb (dest_selected iset) (edges (route t3))
          then t4 ← storeShortcut StatisticsCollector.shortestPath t3;
               mret (true, t4)
          else mret (true, t3)
        else if isDominated t3 (currentCost t3) then mret (true, t3)
        else mret (false, t3)
  end.

(** The equality of [dedupConstraints]'s [std::unique]. *)
Definition same_values (left right : Cost) : bool :=
  forallb (λ i, bool_decide (at_ (values left) i = at_ (values right) i))
    (seq 0 dim).

Definition dedupConstraints (t : ContractingThread) : ContractingThread :=
  let sorted :=
    sort_by (λ a b, lex_ltb (values a) (values b)) (constraints t) in
  set_constraints (unique same_values sorted) t.

(** The round between the probe and the solver: [dedupConstraints], every
    constraint handed to the LP, [++lpCount]. *)
Definition before_solve (t1 : ContractingThread) : ContractingThread :=
  let t2 := dedupConstraints t1 in
  let t3 := foldl (λ acc c, addConstraint c acc) t2 (constraints t2) in
  set_lpCount (SizeT.incr (lpCount t3)) t3.

(** One round of the [while (true)] of the LP loop. [true] in the first
    component stands for [break]. *)
Definition lp_round (iset : gset NodePos) (t : ContractingThread)
  : result (bool * ContractingThread) :=
  '(done, t1) ← testConfig iset (config t) t;
  if (done : bool) then mret (true, t1)
  else
    let t4 := before_solve t1 in
    let '(solved, lp') := lp_solve (lp t4) in
    let t5 := set_lp lp' t4 in
    if negb solved then mret (true, recordMax t5)
    else
      let values := lp_variableValues (lp t5) in
      let newConfig := mkConfig values in
      if config_eqb newConfig (config t5) then
        if bool_decide
             (cost_dot (shortcutCost t5) (config t5) - COST_ACCURACY
                ≤ cost_dot (currentCost t5) (config t5))%Qc
        then t6 ← storeShortcut StatisticsCollector.repeatingConfig t5;
             mret (true, t6)
        else t6 ← storeShortcut StatisticsCollector.unknownReason t5;
             mret (true, t6)
      else mret (false, set_config newConfig t5).

(** The LP loop, at most [fuel] rounds; [None] when the rounds run out. *)
Fixpoint lp_loop (fuel : nat) (iset : gset NodePos) (t : ContractingThread)
  : result (option ContractingThread) :=
  match fuel with
  | 0 => mret None
  | S fuel' =>
      '(done, t1) ← lp_round iset t;
      if (done : bool) then mret (Some t1) else lp_loop fuel' iset t1
  end.

(** The loop over the unit vectors, [n] left from index [i]; the flag is
    [finished]. *)
Fixpoint axis_probes (n i : nat) (iset : gset NodePos) (t : ContractingThread)
  : result (bool * ContractingThread) :=
  match n with
  | 0 => mret (false, t)
  | S n' =>
      '(done, t1) ← testConfig iset (axis_config i) t;
      if (done : bool) then mret (true, t1)
      else axis_probes n' (S i) iset t1
  end.

(** The body of [for (auto& pair : messages)] in [operator()]. The loop
    over [constraints] that only calls [isDominated] changes nothing and is
    left out. *)
Definition process_pair (fuel : nat) (iset : gset NodePos) (pair : EdgePair)
    (t : ContractingThread) : result (option ContractingThread) :=
  let warm :=
    bool_decide (he_end (p_in pair) = he_end (in_ t))
    && bool_decide (he_end (p_out pair) = he_end (out_ t)) in
  let t1 := if warm then t else set_constraints [] t in
  let t2 := set_in_out (p_in pair) (p_out pair) t1 in
  if bool_decide (he_begin (in_ t2) ≠ he_begin (out_ t2)) then
    Throw (invalid_argument "In out pair does not belong together")
  else
    let in_edge := getEdge (he_id (in_ t2)) in
    let out_edge := getEdge (he_id (out_ t2)) in
    if bool_decide (destination in_edge ≠ source out_edge) then
      Throw (invalid_argument "In out edges do not belong together")
    else
      let t3 := set_config uniform_config t2 in
      let t4 :=
        set_shortcutCost (cost_add (he_cost (in_ t3)) (he_cost (out_ t3))) t3
      in
      '(finished, t5) ←
        (if warm then mret (false, t4) else axis_probes dim 0 iset t4);
      if (finished : bool) then mret (Some t5)
      else lp_loop fuel iset (set_lpCount 0%N t5).

(** The pairs one worker receives, in order. *)
Fixpoint run_pairs (fuel : nat) (iset : gset NodePos) (pairs : list EdgePair)
    (t : ContractingThread) : result (option ContractingThread) :=
  match pairs with
  | [] => mret (Some t)
  | pr :: rest =>
      r ← process_pair fuel iset pr t;
      match r with
      | None => mret None
      | Some t1 => run_pairs fuel iset rest t1
      end
  end.

End thread.

Arguments before_solve : simpl never.

(** ** Graph and the level's collaborators *)

(** [class Graph] is not in this file. A graph is what its constructor
    [Graph{nodes, edges}] is given; how the adjacency of a node is read off
    it is a field of [LevelExternals]. *)
Record Graph := mkGraph {
  g_nodes : list Node;
  g_edges : list EdgeId
}.

(** Modelled from the spec: [Graph::getNodeCount], missing from the
    sources; the graph is an array of nodes addressed by [NodePos]. *)
Definition getNodeCount (g : Graph) : nat := length (g_nodes g).


(** The state of a [Contractor] between two calls. *)
Record Contractor := mkContractor {
  printStatistics : bool;
  THREAD_COUNT : nat;
  level : N;
  contractedNodes : list Node;
  contractedEdges : list EdgeId
}.

Class LevelExternals := {
  (** [Graph::getIngoingEdgesOf(pos)]: half edges with [begin = pos] and
      [end] the node the edge comes from *)
  getIngoingEdgesOf : Graph → NodePos → list HalfEdge;
  (** [Graph::getOutgoingEdgesOf(pos)]: half edges with [begin = pos] and
      [end] the node the edge goes to *)
  getOutgoingEdgesOf : Graph → NodePos → list HalfEdge;
  (** What the worker threads of one level hand back through their futures,
      concatenated: the queue, the threads and their interleaving are not
      modelled. A worker's exception is rethrown by [future::get]. *)
  run_workers :
    Contractor → Graph → gset NodePos → list EdgePair → result (list Edge);
  (** [Edge::administerEdges(shortcuts)]: the ids given to the new edges *)
  administerEdges : list Edge → list EdgeId;
  (** the ids of [Edge::edges], read by [mergeWithContracted] *)
  registry_ids : Contractor → list EdgeId
}.

Section contractor.
Context {cp : CostParams} {lext : LevelExternals}.

(** [(inEdges.end() - inEdges.begin()) * (outEdges.end() - outEdges.begin())]
    stored in a [size_t] *)
Definition score (g : Graph) (p : NodePos) : N :=
  SizeT.mul (N.of_nat (length (getIngoingEdgesOf g p)))
            (N.of_nat (length (getOutgoingEdgesOf g p))).

(** [operator<] of [std::pair<size_t, NodePos>] *)
Definition pair_ltb (a b : N * NodePos) : bool :=
  if bool_decide (a.1 < b.1)%N then true
  else if bool_decide (b.1 < a.1)%N then false
  else bool_decide (a.2 < b.2).

(** [selected[edge.end] = false] for every half edge of a range *)
Definition mark_off (selected : list bool) (hs : list HalfEdge) : list bool :=
  foldl (λ sel h, <[he_end h := false]> sel) selected hs.

(** One turn of the sweep of [independentSet]. *)
Definition sweep_step (g : Graph) (acc : list bool * gset NodePos)
    (entry : N * NodePos) : list bool * gset NodePos :=
  let pos := entry.2 in
  match acc.1 !! pos with
  | Some true =>
      let sel1 := mark_off acc.1 (getIngoingEdgesOf g pos) in
      let sel2 := mark_off sel1 (getOutgoingEdgesOf g pos) in
      (sel2, {[pos]} ∪ acc.2)
  | _ => acc
  end.

Definition independentSet (g : Graph) : gset NodePos :=
  let nodeCount := getNodeCount g in
  let nodes := (λ i, (score g i, i)) <$> seq 0 nodeCount in
  let sorted := sort_by pair_ltb nodes in
  (foldl (sweep_step g) (replicate nodeCount true, ∅) sorted).2.

(** [std::nth_element(first, nth, last)] on pairs: with [nth = last] it
    has no effect; otherwise the element at [nth] is the one a sort would
    put there, nothing before it is larger and nothing after it is smaller.
    The pairs are distinct, so the elements before [nth] are the same
    whatever the implementation; their order is not used. *)
Definition nth_element (k : nat) (l : list (N * NodePos))
  : list (N * NodePos) :=
  if decide (k < length l) then sort_by pair_ltb l else l.

Definition reduce (set : gset NodePos) (g : Graph) : gset NodePos :=
  let metric := (λ p, (score g p, p)) <$> merge_sort (≤) (elements set) in
  let divider := 4 in
  let median :=
    if decide (length metric < divider) then length metric
    else length metric / divider in
  let metric' := nth_element median metric in
  list_to_set (snd <$> take median metric').







(** The comparison of the level's [std::sort]. *)
Fixpoint cost_lt_loop (n i : nat) (l r : Cost) : bool :=
  match n with
  | 0 => false
  | S n' =>
      if bool_decide (at_ (values l) i < at_ (values r) i)%Qc then true
      else if bool_decide (at_ (values r) i < at_ (values l) i)%Qc then false
      else cost_lt_loop n' (S i) l r
  end.

Definition shortcut_ltb (left right : Edge) : bool :=
  if bool_decide (source left < source right) then true
  else if bool_decide (source right < source left) then false
  else if bool_decide (destination left < destination right) then true
  else if bool_decide (destination right < destination left) then false
  else cost_lt_loop dim 0 (cost left) (cost right).

(** The equality of the level's [std::unique]. *)
Definition shortcut_same (left right : Edge) : bool :=
  let sameNodes :=
    bool_decide (source left = source right)
    && bool_decide (destination left = destination right) in
  if negb sameNodes then false
  else
    forallb (λ i,
      negb (bool_decide
        (COST_ACCURACY
           < Qcabs (at_ (values (cost left)) i - at_ (values (cost right)) i))%Qc))
      (seq 0 dim).

(** The sort and unique at the end of [contract]. *)
Definition finalize_shortcuts (shortcuts : list Edge) : list Edge :=
  unique shortcut_same (sort_by shortcut_ltb shortcuts).








End contractor.

(** ** A small level to run the definitions on

    Two criteria, [COST_ACCURACY = 1e-6]. Five nodes at positions
    [u = 0], [v = 1], [w = 2], [x = 3], [v' = 4]; the edges are those of a
    registry [reg]; [v] and [v'] are selected. The Dijkstra probe answers
    from the table of the routes from [u] to [w]: a route of least
    scalarised cost, the first of the table among equals, with the number of
    routes of that cost. The LP solver records its constraints and answers
    what it is told to. *)

Module Demo.

Definition qc (n : Z) (d : positive) : Qc := Q2Qc (Qmake n d).

Definition params : CostParams :=
  {| dim := 2; COST_ACCURACY := qc 1 1000000 |}.

Definition cost2 (a b : Qc) : Cost := mkCost [a; b].

Definition int2 (a b : Z) : Cost := cost2 (qc a 1) (qc b 1).

Definition edge (id : EdgeId) (s d : NodePos) (c : Cost) : Edge :=
  mkEdge id (100 + s) (100 + d) c None None s d.

(** [u → v → w] costs [(2,2)], [u → x → w] costs [(2,1)],
    [u → v' → w] costs [(6,6)]. *)
Definition reg (id : EdgeId) : Edge :=
  match id with
  | 0 => edge 0 0 1 (int2 1 1)
  | 1 => edge 1 1 2 (int2 1 1)
  | 2 => edge 2 0 3 (cost2 1 (qc 1 2))
  | 3 => edge 3 3 2 (cost2 1 (qc 1 2))
  | 4 => edge 4 0 4 (int2 3 3)
  | 5 => edge 5 4 2 (int2 3 3)
  | _ => edge id 0 0 (int2 0 0)
  end.

Definition routes : list RouteWithCount :=
  [ mkRoute (int2 2 2) [0; 1] 0;
    mkRoute (int2 2 1) [2; 3] 0;
    mkRoute (int2 6 6) [4; 5] 0 ].

(** The same nodes with [u → x → w] as dear as [u → v → w], and the route
    over [x] first in the table. *)
Definition reg_tie (id : EdgeId) : Edge :=
  match id with
  | 2 => edge 2 0 3 (int2 1 1)
  | 3 => edge 3 3 2 (int2 1 1)
  | _ => reg id
  end.

Definition routes_tie : list RouteWithCount :=
  [ mkRoute (int2 2 2) [2; 3] 0;
    mkRoute (int2 2 2) [0; 1] 0;
    mkRoute (int2 6 6) [4; 5] 0 ].

(** The spec's scenario S4: the pair of [v] costs [(2,0) + (0,2)], the
    route over [x] costs [(3,0)] and the route over [y = 5] costs [(0,3)]. *)
Definition reg_s4 (id : EdgeId) : Edge :=
  match id with
  | 0 => edge 0 0 1 (int2 2 0)
  | 1 => edge 1 1 2 (int2 0 2)
  | 2 => edge 2 0 3 (int2 3 0)
  | 3 => edge 3 3 2 (int2 0 0)
  | 6 => edge 6 0 5 (int2 0 3)
  | 7 => edge 7 5 2 (int2 0 0)
  | _ => edge id 0 0 (int2 0 0)
  end.

Definition routes_s4 : list RouteWithCount :=
  [ mkRoute (int2 2 2) [0; 1] 0;
    mkRoute (int2 3 0) [2; 3] 0;
    mkRoute (int2 0 3) [6; 7] 0 ].

(** The same with a single other route, over [x], that costs [(3,1)]: as
    dear as the pair under the uniform config, and first in the table. *)
Definition reg_even (id : EdgeId) : Edge :=
  match id with
  | 2 => edge 2 0 3 (int2 3 1)
  | _ => reg_s4 id
  end.

Definition routes_even : list RouteWithCount :=
  [ mkRoute (int2 3 1) [2; 3] 0;
    mkRoute (int2 2 2) [0; 1] 0 ].



Definition scalar (conf : Config) (r : RouteWithCount) : Qc :=
  cost_dot (cp := params) (costs r) conf.

Definition best_route (table : list RouteWithCount) (conf : Config)
  : option RouteWithCount :=
  match table with
  | [] => None
  | r0 :: rest =>
      let best :=
        foldl (λ b r,
          if bool_decide (scalar conf r < scalar conf b)%Qc then r else b)
          r0 rest in
      let n :=
        length (filter (λ r, scalar conf r = scalar conf best) table) in
      Some (mkRoute (costs best) (edges best) (N.of_nat n))
  end.

Definition dijkstra (table : list RouteWithCount) (from to : NodePos)
    (conf : Config) : option RouteWithCount :=
  if bool_decide (from = 0 ∧ to = 2) then best_route table conf else None.

Definition world (registry : EdgeId → Edge) (table : list RouteWithCount)
    (eqb : Cost → Cost → bool) : Externals :=
  {| cost_eqb := eqb;
     findBestRoute := dijkstra table;
     getEdge := registry;
     external_id := λ _, EmptyString |}.

Definition solver (lp_ok : bool) (lp_values : list Qc) : LpSolver :=
  {| LpState := list (list Qc);
     lp_addConstraint := λ s c, s ++ [c];
     lp_solve := λ s, (lp_ok, s);
     lp_variableValues := λ _, lp_values |}.

Definition selected : gset NodePos := {[ 1; 4 ]}.

(** Three shortcuts from [u] to [w], as three workers may hand them back:
    the first and the third agree within [COST_ACCURACY] in both
    components, the second lies between them in the order of the sort. *)
Definition near_a : Edge :=
  mkEdge 0 100 102 (int2 0 0) (Some 0) (Some 1) 0 0.

Definition near_b : Edge :=
  mkEdge 0 100 102 (cost2 (qc 5 10000000) (qc 10 1)) (Some 2) (Some 3) 0 0.

Definition near_c : Edge :=
  mkEdge 0 100 102 (cost2 (qc 6 10000000) (qc 0 1)) (Some 4) (Some 5) 0 0.

(** The pair of [v]: [u → v] and [v → w]; and the pair of [v']. *)
Definition pair_v : EdgePair :=
  mkEdgePair (mkHalfEdge 0 1 0 (int2 1 1)) (mkHalfEdge 1 1 2 (int2 1 1)).

Definition pair_v' : EdgePair :=
  mkEdgePair (mkHalfEdge 4 4 0 (int2 3 3)) (mkHalfEdge 5 4 2 (int2 3 3)).

(** The pair of [x]: [u → x] and [x → w]. *)
Definition pair_x : EdgePair :=
  mkEdgePair (mkHalfEdge 2 3 0 (cost2 1 (qc 1 2)))
             (mkHalfEdge 3 3 2 (cost2 1 (qc 1 2))).

Definition world_exact : Externals :=
  world reg routes (cost_eq_exact (cp := params)).

Definition world_tolerant : Externals :=
  world reg routes (cost_eq_tolerant (cp := params)).

Definition world_tie : Externals :=
  world reg_tie routes_tie (cost_eq_exact (cp := params)).

Definition world_s4 : Externals :=
  world reg_s4 routes_s4 (cost_eq_exact (cp := params)).

Definition world_even : Externals :=
  world reg_even routes_even (cost_eq_exact (cp := params)).


Definition pair_s4 : EdgePair :=
  mkEdgePair (mkHalfEdge 0 1 0 (int2 2 0)) (mkHalfEdge 1 1 2 (int2 0 2)).







(** The solver that fails, and the one that answers the uniform config. *)
Definition lp_fails : LpSolver := solver false [].

Definition lp_uniform : LpSolver := solver true [qc 1 2; qc 1 2].

(** A fresh thread that has taken up [pair], as [operator()] does before
    its first probe. *)
Definition ready (L : LpSolver) (lp0 : LpState) (pair : EdgePair)
  : ContractingThread :=
  set_shortcutCost
    (cost_add (cp := params) (he_cost (p_in pair)) (he_cost (p_out pair)))
    (set_in_out (p_in pair) (p_out pair)
       (new_thread (cp := params) (lps := L) false lp0)).

End Demo.

(** ** Predicates of the statements *)

Section statements.
Context {cp : CostParams} {ext : Externals} {lps : LpSolver}.

(** The edges of the pair meet: what [operator()] checks before it calls
    [testConfig]. *)
Definition connected (t : ContractingThread) : Prop :=
  destination (getEdge (he_id (in_ t))) = source (getEdge (he_id (out_ t))).

(** Some edge of the route ends in a selected node. *)
Definition on_selected (iset : gset NodePos) (r : RouteWithCount) : Prop :=
  ∃ id, id ∈ edges r ∧ destPos (getEdge id) ∈ iset.

(** The three counters of the reasons for a shortcut. *)
Definition counters (s : StatisticsCollector.t) : N * N * N :=
  (StatisticsCollector.shortCount s, StatisticsCollector.sameCount s,
   StatisticsCollector.unknown s).

(** Between [t] and [t'] one shortcut for the pair of [t] was stored and
    counted under [ty]. *)
Definition emits (ty : StatisticsCollector.CountType)
    (t t' : ContractingThread) : Prop :=
  ∃ e,
    createShortcut (getEdge (he_id (in_ t))) (getEdge (he_id (out_ t))) = Ok e
    ∧ shortcuts t' = shortcuts t ++ [e]
    ∧ counters (stats t')
      = counters (StatisticsCollector.countShortcut ty (stats t)).

(** Between [t] and [t'] no shortcut was stored or counted. *)
Definition emits_nothing (t t' : ContractingThread) : Prop :=
  shortcuts t' = shortcuts t ∧ counters (stats t') = counters (stats t).

(** [t'] works on the pair of [t]. *)
Definition same_pair (t t' : ContractingThread) : Prop :=
  in_ t' = in_ t ∧ out_ t' = out_ t ∧ shortcutCost t' = shortcutCost t.

(** [rounds iset k t t']: [k] rounds of the LP loop, none of which ends the
    loop, lead from [t] to [t']. *)
Inductive rounds (iset : gset NodePos)
  : nat → ContractingThread → ContractingThread → Prop :=
  | rounds_here t : rounds iset 0 t t
  | rounds_next k t t1 t2 :
      lp_round iset t = Ok (false, t1) →
      rounds iset k t1 t2 →
      rounds iset (S k) t t2.

(** The state a probe leaves, read off a run. *)
Definition probed (t : ContractingThread)
    (r : result (bool * ContractingThread)) : ContractingThread :=
  match r with
  | Ok (_, t') => t'
  | Throw _ => t
  end.







(** The classification of a shortcut stored at a repeated config. *)
Definition fixed_point_reason (t : ContractingThread)
  : StatisticsCollector.CountType :=
  if bool_decide
       (cost_dot (shortcutCost t) (config t) - COST_ACCURACY
          ≤ cost_dot (currentCost t) (config t))%Qc
  then StatisticsCollector.repeatingConfig
  else StatisticsCollector.unknownReason.

End statements.

(** ** A graph to run the level on

    A reading of [class Graph] for [Demo]: the position of a node is its
    index in the node array, and the half edges of a node are those of the
    graph's edges, looked up in a registry, that start or end in it. The
    worker pool of this level finds no shortcut. *)

Module DemoLevel.

Fixpoint index_of (id : NodeId) (nodes : list Node) : option NodePos :=
  match nodes with
  | [] => None
  | n :: ns =>
      if decide (node_id n = id) then Some 0 else S <$> index_of id ns
  end.

Definition half_edges (registry : EdgeId → Edge) (outgoing : bool)
    (g : Graph) (p : NodePos) : list HalfEdge :=
  omap (λ id,
    let e := registry id in
    let near := if outgoing then source e else destination e in
    let far := if outgoing then destination e else source e in
    if decide (index_of near (g_nodes g) = Some p) then
      (λ q, mkHalfEdge id p q (cost e)) <$> index_of far (g_nodes g)
    else None) (g_edges g).

Definition level (registry : EdgeId → Edge) : LevelExternals :=
  {| getIngoingEdgesOf := half_edges registry false;
     getOutgoingEdgesOf := half_edges registry true;
     run_workers := λ _ _ _ _, Ok [];
     administerEdges := λ _, [];
     registry_ids := λ _, [0; 1; 2; 3; 4; 5] |}.

(** The five nodes and six edges of [Demo.reg]. *)
Definition graph : Graph :=
  mkGraph ((λ i, mkNode (100 + i) 0%N) <$> seq 0 5) [0; 1; 2; 3; 4; 5].

(** One node with an edge to itself. *)
Definition loop_reg (id : EdgeId) : Edge :=
  Demo.edge id 0 0 (Demo.int2 1 1).

Definition loop_graph : Graph := mkGraph [mkNode 100 0%N] [9].



End DemoLevel.

(** ** Predicates of the statements about a level *)

Section level_statements.
Context {lext : LevelExternals}.

(** [v] is the far end of one of the half edges [hs]. *)
Definition listed (hs : list HalfEdge) (v : NodePos) : Prop :=
  ∃ h, h ∈ hs ∧ he_end h = v.

(** The graph has an edge from [u] to [v]: it is listed among the
    outgoing edges of [u] or among the ingoing edges of [v]. *)
Definition edge_of (g : Graph) (u v : NodePos) : Prop :=
  listed (getOutgoingEdgesOf g u) v ∨ listed (getIngoingEdgesOf g v) u.

(** The two adjacency lists of the graph tell the same edges. *)
Definition adjacency_consistent (g : Graph) : Prop :=
  ∀ u v, u < getNodeCount g → v < getNodeCount g →
    (listed (getOutgoingEdgesOf g u) v ↔ listed (getIngoingEdgesOf g v) u).

(** [w] is listed at [u], at either end of an edge. *)
Definition neighbour (g : Graph) (u w : NodePos) : Prop :=
  listed (getIngoingEdgesOf g u) w ∨ listed (getOutgoingEdgesOf g u) w.

(** What the sweep of [independentSet] keeps true of its marks and its
    set: the marks cover the graph, the set holds nodes of the graph, every
    neighbour of a node of the set is marked off, and no two nodes of the
    set are neighbours. *)
Definition sweep_inv (g : Graph) (acc : list bool * gset NodePos) : Prop :=
  length acc.1 = getNodeCount g
  ∧ (∀ u, u ∈ acc.2 → u < getNodeCount g)
  ∧ (∀ u w, u ∈ acc.2 → neighbour g u w → w < getNodeCount g →
       acc.1 !! w = Some false)
  ∧ (∀ u w, u ∈ acc.2 → w ∈ acc.2 → u ≠ w → ¬ neighbour g u w).

Definition listedb (hs : list HalfEdge) (v : NodePos) : bool :=
  existsb (λ h, bool_decide (he_end h = v)) hs.

(** The same as a test that runs. *)
Definition adjacency_consistentb (g : Graph) : bool :=
  forallb (λ u,
    forallb (λ v,
      bool_decide (listedb (getOutgoingEdgesOf g u) v
                   = listedb (getIngoingEdgesOf g v) u))
      (seq 0 (getNodeCount g)))
    (seq 0 (getNodeCount g)).

(** What [std::nth_element(first, first + k, last)] promises of the
    rearranged range [l']: it holds the elements of [l], and no element from
    position [k] on is less than one before position [k]. *)
Definition nth_element_post (k : nat) (l l' : list (N * NodePos)) : Prop :=
  l' ≡ₚ l
  ∧ ∀ i j a b, i < k → k ≤ j → l' !! i = Some a → l' !! j = Some b →
      pair_ltb b a = false.

End level_statements.

(** * Properties *)

(** ** isDominated *)

Section isDominated_facts.
Context {cp : CostParams} {ext : Externals} {lps : LpSolver}.

Lemma isDominated_loop_spec n i c sc sd :
  let r := isDominated_loop n i c sc true sd in
  r.1 && r.2 = true ↔
    (∀ j, i ≤ j < i + n → (at_ (values c) j ≤ at_ (values sc) j)%Qc)
    ∧ (sd = true
       ∨ ∃ j, i ≤ j < i + n ∧ at_ (values c) j ≠ at_ (values sc) j).
Proof.
  revert i sd. induction n as [|n IH]; intros i sd; simpl.
  - split.
    + intros ->. split; [intros j ?; lia | by left].
    + intros [_ [->|(j & ? & _)]]; [done | lia].
  - case_bool_decide as Hgt; simpl.
    + split; [done |]. intros [Hle _].
      apply Qclt_not_le in Hgt. destruct Hgt. apply Hle. lia.
    + apply Qcnot_lt_le in Hgt. rewrite (IH (S i)). split.
      * intros [Hle Hd]. split.
        -- intros j Hj. destruct (decide (j = i)) as [->|]; [done |].
           apply Hle. lia.
        -- case_bool_decide as Hne.
           ++ right. exists i. split; [lia | done].
           ++ destruct Hd as [->|(j & ? & ?)]; [by left |].
              right. exists j. split; [lia | done].
      * intros [Hle Hd]. split.
        -- intros j Hj. apply Hle. lia.
        -- case_bool_decide as Hne; [by left |].
           destruct Hd as [->|(j & Hj & Hjne)]; [by left |].
           right. exists j. split; [| done].
           destruct (decide (j = i)) as [->|]; [| lia].
           destruct Hne. done.
Qed.

(** C2. [isDominated c] holds exactly when [c] is component-wise at most
    [shortcutCost] and differs from it in some component; in particular
    [shortcutCost] is not dominated. *)
Theorem isDominated_iff t c :
  (isDominated t c = true ↔
     (∀ i, i < dim →
        (at_ (values c) i ≤ at_ (values (shortcutCost t)) i)%Qc)
     ∧ (∃ i, i < dim
           ∧ at_ (values c) i ≠ at_ (values (shortcutCost t)) i))
  ∧ isDominated t (shortcutCost t) = false.
Proof.
  assert (Hiff : ∀ c', isDominated t c' = true ↔
     (∀ i, i < dim →
        (at_ (values c') i ≤ at_ (values (shortcutCost t)) i)%Qc)
     ∧ (∃ i, i < dim
           ∧ at_ (values c') i ≠ at_ (values (shortcutCost t)) i)).
  { intros c'. unfold isDominated.
    pose proof (isDominated_loop_spec dim 0 c' (shortcutCost t) false) as H.
    simpl in H.
    destruct (isDominated_loop dim 0 c' (shortcutCost t) true false)
      as [d s]; simpl in *.
    rewrite H. split.
    - intros [Hle [?|(j & ? & ?)]]; [done |].
      split; [intros i ?; apply Hle; lia | exists j; split; [lia | done]].
    - intros [Hle (j & ? & ?)].
      split; [intros i ?; apply Hle; lia |].
      right. exists j. split; [lia | done]. }
  split; [apply Hiff |].
  apply not_true_is_false. rewrite Hiff. intros [_ (i & _ & Hi)]. by apply Hi.
Qed.

End isDominated_facts.

(** ** createShortcut and checkShortestPath *)

Section probe_facts.
Context {cp : CostParams} {ext : Externals}.

Lemma cost_add_at a b i :
  i < dim →
  at_ (values (cost_add a b)) i = (at_ (values a) i + at_ (values b) i)%Qc.
Proof.
  intros Hi. unfold cost_add, at_ at 1. simpl.
  rewrite (nth_indep _ 0%Qc ((λ i, at_ (values a) i + at_ (values b) i)%Qc 0))
    by (rewrite length_map, length_seq; lia).
  rewrite (map_nth (λ i, (at_ (values a) i + at_ (values b) i)%Qc)).
  by rewrite seq_nth.
Qed.

Lemma cost_add_length a b : length (values (cost_add a b)) = dim.
Proof. unfold cost_add. simpl. by rewrite length_map, length_seq. Qed.

Lemma createShortcut_connected e1 e2 :
  destination e1 = source e2 → ∃ s, createShortcut e1 e2 = Ok s.
Proof.
  intros Hd. unfold createShortcut.
  rewrite bool_decide_eq_false_2 by (by intros []). eauto.
Qed.

(** C5. [createShortcut e1 e2] throws an [invalid_argument] exactly when the
    destination of [e1] is not the source of [e2]; the edge it returns runs
    from the source of [e1] to the destination of [e2], has the children
    [(e1.id, e2.id)] and the cost [e1.cost + e2.cost], component by
    component. *)
Theorem createShortcut_spec e1 e2 :
  ((∃ what, createShortcut e1 e2 = Throw (invalid_argument what))
     ↔ destination e1 ≠ source e2)
  ∧ ((∃ s, createShortcut e1 e2 = Ok s) ↔ destination e1 = source e2)
  ∧ (∀ s, createShortcut e1 e2 = Ok s →
       source s = source e1
       ∧ destination s = destination e2
       ∧ edgeA s = Some (internalId e1)
       ∧ edgeB s = Some (internalId e2)
       ∧ cost s = cost_add (cost e1) (cost e2)
       ∧ length (values (cost s)) = dim
       ∧ ∀ i, i < dim →
           at_ (values (cost s)) i
           = (at_ (values (cost e1)) i + at_ (values (cost e2)) i)%Qc).
Proof.
  unfold createShortcut. case_bool_decide as Hne.
  - split; [| split].
    + split; [done | intros _; eauto].
    + split; [intros [s Hs]; discriminate | intros He; by destruct Hne].
    + intros s Hs. discriminate.
  - split; [| split].
    + split; [intros [w Hw]; discriminate | intros Hd; by destruct Hd].
    + split; [done | intros _; eauto].
    + intros s [= <-]. simpl. repeat split; try done.
      * apply cost_add_length.
      * intros i Hi. by apply cost_add_at.
Qed.

(** C7, as the code has it. Without a route [checkShortestPath] returns
    [(false, none)]. With a route it returns the route, and [isShortest] is
    the verdict of [Cost]'s equality on the route's cost vector and the
    vector [in.cost + out.cost]; the configuration takes no part in the
    comparison, so two probes that find the same route agree on it. *)
Theorem checkShortestPath_spec startEdge destEdge conf :
  (findBestRoute (he_end startEdge) (he_end destEdge) conf = None →
     checkShortestPath startEdge destEdge conf = (false, None))
  ∧ (∀ r, findBestRoute (he_end startEdge) (he_end destEdge) conf = Some r →
       checkShortestPath startEdge destEdge conf
       = (cost_eqb (costs r) (cost_add (he_cost startEdge) (he_cost destEdge)),
          Some r))
  ∧ (∀ conf',
       findBestRoute (he_end startEdge) (he_end destEdge) conf'
       = findBestRoute (he_end startEdge) (he_end destEdge) conf →
       checkShortestPath startEdge destEdge conf'
       = checkShortestPath startEdge destEdge conf).
Proof.
  unfold checkShortestPath. split; [| split].
  - by intros ->.
  - by intros r ->.
  - by intros conf' ->.
Qed.

End probe_facts.

(** C7, as the claim words it, fails. Under the first unit vector the probe
    for the pair of [x] finds the route over [v]; its cost [(2,2)] and the
    pair's [in.cost + out.cost = (2,1)] have the same scalarised value [2],
    and [isShortest] is false, for the exact and for the tolerant reading of
    [Cost]'s equality. *)
Lemma checkShortestPath_scalarised_counterexample :
  let conf := axis_config (cp := Demo.params) 0 in
  let i := p_in Demo.pair_x in
  let o := p_out Demo.pair_x in
  let sum := cost_add (cp := Demo.params) (he_cost i) (he_cost o) in
  (∃ r, (checkShortestPath (cp := Demo.params) (ext := Demo.world_exact)
           i o conf).2 = Some r
        ∧ cost_dot (cp := Demo.params) (costs r) conf
          = cost_dot (cp := Demo.params) sum conf)
  ∧ (checkShortestPath (cp := Demo.params) (ext := Demo.world_exact)
       i o conf).1 = false
  ∧ (checkShortestPath (cp := Demo.params) (ext := Demo.world_tolerant)
       i o conf).1 = false.
Proof.
  split; [| split]; [| by vm_compute ..].
  eexists. split; [by vm_compute |].
  apply (bool_decide_unpack _). by vm_compute.
Qed.

(** ** testConfig *)

Section testConfig_facts.
Context {cp : CostParams} {ext : Externals} {lps : LpSolver}.

Lemma existsb_dest_selected iset r :
  existsb (dest_selected iset) (edges r) = true ↔ on_selected iset r.
Proof.
  rewrite existsb_exists. unfold on_selected, dest_selected.
  split; intros (id & Hin & Hsel); exists id.
  - apply list_elem_of_In in Hin. by apply bool_decide_eq_true in Hsel.
  - split; [by apply list_elem_of_In | by apply bool_decide_eq_true].
Qed.

Lemma storeShortcut_emits ty t :
  connected t →
  ∃ t', storeShortcut ty t = Ok t'
        ∧ emits ty t t'
        ∧ constraints t' = constraints t
        ∧ currentCost t' = currentCost t
        ∧ config t' = config t
        ∧ lp t' = lp t.
Proof.
  intros Hc. unfold storeShortcut. simpl.
  destruct (createShortcut_connected (getEdge (he_id (in_ t)))
              (getEdge (he_id (out_ t))) Hc) as [e He].
  rewrite He. simpl.
  eexists. split; [done |]. split; [| done].
  exists e. by destruct ty.
Qed.

(** C1, as the code has it. With the pair's edges connected, [testConfig]
    returns. Without a route, or with a route of no edges, it returns true
    and leaves the constraints and the shortcuts alone. With a route [r] of
    some edges it appends [r]'s cost to the constraints in every case; it
    returns true exactly when the probe calls the route shortest or the cost
    is dominated; and it stores a shortcut, counted as a shortest path,
    exactly when the route is shortest and either [pathCount] is one or an
    edge of the route ends in a selected node. *)
Theorem testConfig_spec iset c t :
  connected t →
  ∃ b t',
    testConfig iset c t = Ok (b, t')
    ∧ match findBestRoute (he_end (in_ t)) (he_end (out_ t)) c with
      | None =>
          b = true ∧ constraints t' = constraints t ∧ emits_nothing t t'
      | Some r =>
          if decide (edges r = []) then
            b = true ∧ constraints t' = constraints t ∧ emits_nothing t t'
          else
            let isShortest :=
              cost_eqb (costs r)
                (cost_add (he_cost (in_ t)) (he_cost (out_ t))) in
            let necessary :=
              isShortest = true
              ∧ (pathCount r = 1%N ∨ on_selected iset r) in
            constraints t' = constraints t ++ [costs r]
            ∧ currentCost t' = costs r
            ∧ (b = true
               ↔ isShortest = true ∨ isDominated t (costs r) = true)
            ∧ (necessary → emits StatisticsCollector.shortestPath t t')
            ∧ (¬ necessary → emits_nothing t t')
      end.
Proof.
  intros Hc. unfold testConfig, checkShortestPath.
  destruct (findBestRoute (he_end (in_ t)) (he_end (out_ t)) c) as [r|];
    [| by eexists _, _].
  destruct (decide (edges r = [])) as [Hnil|Hnil].
  { rewrite bool_decide_eq_true_2 by done. by eexists _, _. }
  rewrite bool_decide_eq_false_2 by done. simpl.
  destruct (cost_eqb (costs r) _) eqn:Hs.
  - destruct (bool_decide (pathCount r = 1%N)
              || existsb (dest_selected iset) (edges r)) eqn:Hn.
    + set (t3 := set_constraints _ _).
      destruct (storeShortcut_emits StatisticsCollector.shortestPath t3 Hc)
        as (t4 & -> & Hem & Hcs & Hcc & _).
      simpl. eexists _, _. split; [done |].
      rewrite Hcs, Hcc. split; [done |]. split; [done |].
      split; [split; [by left | done] |].
      split; [intros _; exact Hem |].
      intros Hnn. destruct Hnn. split; [done |].
      apply orb_true_iff in Hn as [Hp|He].
      * left. by apply bool_decide_eq_true in Hp.
      * right. by apply existsb_dest_selected.
    + eexists _, _. split; [done |]. split; [done |]. split; [done |].
      split; [split; [by left | done] |].
      split; [| done].
      intros [_ Hnec]. apply orb_false_iff in Hn as [Hp He].
      apply bool_decide_eq_false in Hp.
      destruct Hnec as [?|Hsel]; [done |].
      apply existsb_dest_selected in Hsel. congruence.
  - change (isDominated _ (costs r)) with (isDominated t (costs r)).
    destruct (isDominated t (costs r)) eqn:Hd.
    + eexists _, _. split; [done |]. split; [done |]. split; [done |].
      split; [split; [by right | done] |].
      split; [by intros [? _] | done].
    + eexists _, _. split; [done |]. split; [done |]. split; [done |].
      split; [split; [done | by intros [?|?]] |].
      split; [by intros [? _] | done].
Qed.

End testConfig_facts.

Section testConfig_demo.
#[local] Existing Instance Demo.params.
#[local] Existing Instance Demo.lp_fails.

Lemma testConfig_spec_witness :
  let t := Demo.ready Demo.lp_fails [] Demo.pair_v in
  let c := axis_config 0 in
  connected (ext := Demo.world_exact) t
  ∧ ∃ t', testConfig (ext := Demo.world_exact) Demo.selected c t
          = Ok (true, t')
          ∧ emits (ext := Demo.world_exact)
              StatisticsCollector.shortestPath t t'.
Proof.
  intros t c.
  assert (Hc : connected (ext := Demo.world_exact) t) by reflexivity.
  split; [exact Hc |].
  destruct (testConfig_spec (ext := Demo.world_exact) Demo.selected c t Hc)
    as (b & t' & Hrun & Hpost).
  assert (Hb : b = true).
  { assert (H : fst <$> testConfig (ext := Demo.world_exact)
                          Demo.selected c t
                = Ok true :> result bool) by (by vm_compute).
    rewrite Hrun in H. by injection H. }
  subst b. exists t'. split; [exact Hrun |].
  change (findBestRoute _ _ _) with (Demo.dijkstra Demo.routes 0 2 c) in Hpost.
  assert (Hr : Demo.dijkstra Demo.routes 0 2 c
               = Some (mkRoute (Demo.int2 2 2) [0; 1] 2%N))
    by (apply (bool_decide_unpack _); by vm_compute).
  rewrite Hr in Hpost. simpl in Hpost.
  destruct Hpost as (_ & _ & _ & Hem & _). apply Hem.
  split; [by vm_compute |].
  right. exists 0. split; [by left | by vm_compute].
Defined.

(** C1, as the claim words it, fails twice. In the world where the route
    over [x] costs as much as the pair of [v] and is found first,
    [testConfig] finds a route, the route is shortest with [pathCount = 2]
    and none of its edges ends in a selected node, its cost is not
    dominated, and [testConfig] returns true without a shortcut: none of
    (a), (b), (c). And where the route over [x] is strictly better, case
    (c), the dominated cost is appended to the constraints all the same. *)
Lemma testConfig_claim_counterexample :
  let c := uniform_config in
  (let t := Demo.ready Demo.lp_fails [] Demo.pair_v in
   ∃ r t',
     findBestRoute (Externals := Demo.world_tie) 0 2 c = Some r
     ∧ testConfig (ext := Demo.world_tie) Demo.selected c t = Ok (true, t')
     ∧ pathCount r ≠ 1%N
     ∧ ¬ on_selected (ext := Demo.world_tie) Demo.selected r
     ∧ isDominated t (costs r) = false
     ∧ shortcuts t' = []
     ∧ length (constraints t') = 1)
  ∧ (let t := Demo.ready Demo.lp_fails [] Demo.pair_v in
     ∃ t',
       testConfig (ext := Demo.world_exact) Demo.selected c t
       = Ok (true, t')
       ∧ isDominated t (currentCost t') = true
       ∧ shortcuts t' = []
       ∧ constraints t = []
       ∧ length (constraints t') = 1).
Proof.
  intros c. split.
  - intros t.
    exists (default (mkRoute (mkCost []) [] 0%N)
              (findBestRoute (Externals := Demo.world_tie) 0 2 c)).
    exists (match testConfig (ext := Demo.world_tie) Demo.selected c t with
            | Ok (_, t') => t'
            | Throw _ => t
            end).
    split; [by vm_compute |]. split; [by vm_compute |].
    split; [by vm_compute |]. split.
    { rewrite <-existsb_dest_selected. by vm_compute. }
    by vm_compute.
  - intros t.
    exists (match testConfig (ext := Demo.world_exact) Demo.selected c t with
            | Ok (_, t') => t'
            | Throw _ => t
            end).
    split; [by vm_compute |]. by vm_compute.
Qed.

End testConfig_demo.


(** ** The LP loop *)

Section lp_loop_facts.
Context {cp : CostParams} {ext : Externals} {lps : LpSolver}.

Lemma storeShortcut_frame ty t t' :
  storeShortcut ty t = Ok t' →
  same_pair t t' ∧ config t' = config t ∧ lp t' = lp t
  ∧ lpCount t' = lpCount t.
Proof.
  unfold storeShortcut. simpl.
  destruct (createShortcut _ _); simpl; [| done]. by intros [= <-].
Qed.

Lemma testConfig_frame iset c t b t' :
  testConfig iset c t = Ok (b, t') →
  same_pair t t' ∧ config t' = config t ∧ lp t' = lp t
  ∧ lpCount t' = lpCount t.
Proof.
  unfold testConfig.
  destruct (checkShortestPath (in_ t) (out_ t) c) as [isShortest [r|]];
    [| by intros [= <- <-]].
  case_bool_decide; [by intros [= <- <-] |].
  destruct isShortest.
  - destruct (_ || _).
    + destruct (storeShortcut _ _) as [t4|] eqn:Hst; simpl; [| done].
      intros [= <- <-]. by apply storeShortcut_frame in Hst.
    + by intros [= <- <-].
  - destruct (isDominated _ _); by intros [= <- <-].
Qed.

Lemma testConfig_false iset c t t' :
  testConfig iset c t = Ok (false, t') →
  emits_nothing t t'
  ∧ ∃ r, findBestRoute (he_end (in_ t)) (he_end (out_ t)) c = Some r
         ∧ currentCost t' = costs r
         ∧ constraints t' = constraints t ++ [costs r].
Proof.
  unfold testConfig, checkShortestPath.
  destruct (findBestRoute _ _ c) as [r|]; [| done].
  case_bool_decide; [done |].
  destruct (cost_eqb _ _).
  - destruct (_ || _); [| done].
    by destruct (storeShortcut _ _).
  - destruct (isDominated _ _); [done |].
    intros [= <-]. split; [done | by exists r].
Qed.

Lemma addConstraints_frame cs t :
  let t' := foldl (λ acc c, addConstraint c acc) t cs in
  same_pair t t' ∧ config t' = config t ∧ shortcuts t' = shortcuts t
  ∧ stats t' = stats t ∧ currentCost t' = currentCost t
  ∧ constraints t' = constraints t ∧ lpCount t' = lpCount t.
Proof.
  revert t. induction cs as [|c cs IH]; intros t; simpl; [done |].
  destruct (IH (addConstraint c t)) as ((? & ? & ?) & ? & ? & ? & ? & ? & ?).
  unfold same_pair, addConstraint in *. simpl in *. repeat split; congruence.
Qed.

Lemma before_solve_frame t :
  same_pair t (before_solve t)
  ∧ config (before_solve t) = config t
  ∧ shortcuts (before_solve t) = shortcuts t
  ∧ stats (before_solve t) = stats t
  ∧ currentCost (before_solve t) = currentCost t.
Proof.
  unfold before_solve.
  pose proof (addConstraints_frame (constraints (dedupConstraints t))
                (dedupConstraints t)) as H.
  cbv zeta in *.
  set (t3 := foldl _ _ _) in *. clearbody t3.
  destruct H as ((Hi & Ho & Hsc) & Hcfg & Hsh & Hst & Hcc & _).
  unfold same_pair. simpl.
  rewrite Hi, Ho, Hsc, Hcfg, Hsh, Hst, Hcc. done.
Qed.

Lemma lp_round_continue iset t t1 :
  lp_round iset t = Ok (false, t1) → emits_nothing t t1 ∧ same_pair t t1.
Proof.
  unfold lp_round.
  destruct (testConfig iset (config t) t) as [[[] t0]|] eqn:Htc;
    simpl; [done | | done].
  destruct (testConfig_false _ _ _ _ Htc) as [[Hs Hc] _].
  destruct (testConfig_frame _ _ _ _ _ Htc) as ((Hi & Ho & Hsc) & _).
  destruct (before_solve_frame t0) as ((Hi' & Ho' & Hsc') & _ & Hs' & Hst' & _).
  set (t4 := before_solve t0) in *. clearbody t4.
  destruct (lp_solve _) as [[] lp']; simpl; [| done].
  destruct (config_eqb _ _).
  - case_bool_decide; by destruct (storeShortcut _ _).
  - intros [= <-]. unfold emits_nothing, same_pair.
    repeat split; simpl; congruence.
Qed.

Lemma rounds_frame iset k t tl :
  rounds iset k t tl → emits_nothing t tl ∧ same_pair t tl.
Proof.
  induction 1 as [t|k t t1 t2 Hround _ IH]; [done |].
  apply lp_round_continue in Hround.
  unfold emits_nothing, same_pair in *.
  destruct Hround as ((? & ?) & ? & ? & ?), IH as ((? & ?) & ? & ? & ?).
  repeat split; congruence.
Qed.

Lemma lp_loop_rounds iset k t tl t' extra :
  rounds iset k t tl →
  lp_round iset tl = Ok (true, t') →
  lp_loop (S k + extra) iset t = Ok (Some t').
Proof.
  induction 1 as [t|k t t1 t2 Hround _ IH]; intros Hlast; simpl.
  - by rewrite Hlast.
  - rewrite Hround. simpl. by apply IH.
Qed.

Lemma emits_transport ty t tl t' :
  emits_nothing t tl → same_pair t tl → emits ty tl t' → emits ty t t'.
Proof.
  intros (Hs & Hc) (Hi & Ho & _) (e & He & Hsh & Hcnt).
  exists e. rewrite <-Hi, <-Ho, <-Hs. split; [done |]. split; [done |].
  rewrite Hcnt. unfold counters in *. injection Hc as H1 H2 H3.
  destruct ty; simpl; congruence.
Qed.

(** C3. In the LP loop, after any number of rounds that did not end it, a
    round whose probe leaves the question open ends the loop in two cases.
    When the solver reports failure, the loop ends and no shortcut has been
    stored or counted for the pair. When the solver returns the config the
    round started with, one shortcut is stored, counted as a repeating
    config when [currentCost * config >= shortcutCost * config -
    COST_ACCURACY] and as unknown otherwise, and the loop ends. *)
Theorem lp_loop_exits iset k t tl t1 :
  connected t →
  rounds iset k t tl →
  testConfig iset (config tl) tl = Ok (false, t1) →
  let answer := lp_solve (lp (before_solve t1)) in
  let newConfig := mkConfig (lp_variableValues answer.2) in
  (answer.1 = false →
     ∃ t', (∀ extra, lp_loop (S k + extra) iset t = Ok (Some t'))
           ∧ emits_nothing t t')
  ∧ (answer.1 = true → config_eqb newConfig (config tl) = true →
     ∃ t', (∀ extra, lp_loop (S k + extra) iset t = Ok (Some t'))
           ∧ emits (fixed_point_reason t1) t t'
           ∧ fixed_point_reason t1
             = if bool_decide
                    (cost_dot (shortcutCost t) (config tl) - COST_ACCURACY
                       ≤ cost_dot (currentCost t1) (config tl))%Qc
               then StatisticsCollector.repeatingConfig
               else StatisticsCollector.unknownReason).
Proof.
  intros Hconn Hrounds Htc answer newConfig.
  destruct (rounds_frame _ _ _ _ Hrounds) as [Hnone Hpair].
  destruct (testConfig_false _ _ _ _ Htc) as [Hnone1 _].
  destruct (testConfig_frame _ _ _ _ _ Htc) as (Hpair1 & Hcfg1 & _).
  destruct (before_solve_frame t1) as (Hpair2 & Hcfg2 & Hsh2 & Hst2 & Hcc2).
  assert (Hround : ∀ r,
    (let '(solved, lp') := answer in
     let t5 := set_lp lp' (before_solve t1) in
     if negb solved then mret (true, recordMax t5)
     else
       if config_eqb (mkConfig (lp_variableValues (lp t5))) (config t5) then
         if bool_decide
              (cost_dot (shortcutCost t5) (config t5) - COST_ACCURACY
                 ≤ cost_dot (currentCost t5) (config t5))%Qc
         then t6 ← storeShortcut StatisticsCollector.repeatingConfig t5;
              mret (true, t6)
         else t6 ← storeShortcut StatisticsCollector.unknownReason t5;
              mret (true, t6)
       else mret (false, set_config (mkConfig (lp_variableValues (lp t5))) t5))
    = r → lp_round iset tl = r).
  { intros r <-. unfold lp_round. rewrite Htc. simpl. done. }
  subst newConfig. subst answer.
  set (t4 := before_solve t1) in *. clearbody t4.
  destruct Hnone as [Hsh Hcn], Hnone1 as [Hsh1 Hcn1].
  destruct Hpair as (Hi & Ho & Hsc), Hpair1 as (Hi1 & Ho1 & Hsc1),
    Hpair2 as (Hi2 & Ho2 & Hsc2).
  destruct (lp_solve (lp t4)) as [solved lp'] eqn:Hans.
  specialize (Hround _ eq_refl). cbn [fst snd].
  split.
  - intros ->. simpl in Hround. exists (recordMax (set_lp lp' t4)). split.
    + intros extra. by eapply lp_loop_rounds.
    + unfold emits_nothing, recordMax, counters in *. simpl.
      rewrite Hsh2, Hst2. split; congruence.
  - intros -> Heq. simpl in Hround.
    rewrite Hcfg2, Hcfg1, Heq, Hsc2, Hcc2 in Hround.
    set (t5 := set_lp lp' t4) in *.
    assert (Hc5 : connected t5).
    { unfold connected in *. simpl. by rewrite Hi2, Ho2, Hi1, Ho1, Hi, Ho. }
    destruct (storeShortcut_emits (fixed_point_reason t1) t5 Hc5)
      as (t6 & Hst & Hem & _).
    exists t6. split; [| split].
    + intros extra. eapply lp_loop_rounds; [done |]. rewrite Hround.
      unfold fixed_point_reason in Hst. rewrite Hcfg1 in Hst.
      revert Hst. destruct (bool_decide _); by intros ->.
    + apply (emits_transport _ t t5); [| | done].
      * unfold emits_nothing. simpl. rewrite Hsh2, Hst2. split; congruence.
      * unfold same_pair. simpl. repeat split; congruence.
    + unfold fixed_point_reason. by rewrite Hcfg1, Hsc1, Hsc.
Qed.

End lp_loop_facts.

Section lp_loop_demo.
#[local] Existing Instance Demo.params.

Lemma lp_loop_exits_witness :
  (let t := Demo.ready Demo.lp_fails [] Demo.pair_s4 in
   ∃ t', lp_loop (ext := Demo.world_s4) 1 Demo.selected t = Ok (Some t')
         ∧ emits_nothing t t')
  ∧ (let t := Demo.ready Demo.lp_uniform [] Demo.pair_s4 in
     ∃ t', lp_loop (ext := Demo.world_s4) 1 Demo.selected t = Ok (Some t')
           ∧ emits (ext := Demo.world_s4)
               StatisticsCollector.unknownReason t t')
  ∧ (let t := Demo.ready Demo.lp_uniform [] Demo.pair_s4 in
     ∃ t', lp_loop (ext := Demo.world_even) 1 Demo.selected t = Ok (Some t')
           ∧ emits (ext := Demo.world_even)
               StatisticsCollector.repeatingConfig t t').
Proof.
  split; [| split].
  - intros t.
    set (t1 := probed t (testConfig (ext := Demo.world_s4)
                           Demo.selected (config t) t)).
    destruct (lp_loop_exits (ext := Demo.world_s4) Demo.selected 0 t t t1)
      as [Hfail _].
    + reflexivity.
    + constructor.
    + by vm_compute.
    + destruct Hfail as (t' & Hloop & Hnone); [by vm_compute |].
      exists t'. split; [apply (Hloop 0) | done].
  - intros t.
    set (t1 := probed t (testConfig (ext := Demo.world_s4)
                           Demo.selected (config t) t)).
    destruct (lp_loop_exits (ext := Demo.world_s4) Demo.selected 0 t t t1)
      as [_ Hfix].
    + reflexivity.
    + constructor.
    + by vm_compute.
    + destruct Hfix as (t' & Hloop & Hem & Hreason);
        [by vm_compute | by vm_compute |].
      exists t'. split; [apply (Hloop 0) |].
      replace StatisticsCollector.unknownReason
        with (fixed_point_reason t1) by (by vm_compute). done.
  - intros t.
    set (t1 := probed t (testConfig (ext := Demo.world_even)
                           Demo.selected (config t) t)).
    destruct (lp_loop_exits (ext := Demo.world_even) Demo.selected 0 t t t1)
      as [_ Hfix].
    + reflexivity.
    + constructor.
    + by vm_compute.
    + destruct Hfix as (t' & Hloop & Hem & Hreason);
        [by vm_compute | by vm_compute |].
      exists t'. split; [apply (Hloop 0) |].
      replace StatisticsCollector.repeatingConfig
        with (fixed_point_reason t1) by (by vm_compute). done.
Defined.

End lp_loop_demo.

(** ** Warm start *)

Section warm_start_facts.
Context {cp : CostParams} {ext : Externals} {lps : LpSolver}.






End warm_start_facts.

Section warm_start_demo.
#[local] Existing Instance Demo.params.
#[local] Existing Instance Demo.lp_fails.



End warm_start_demo.

(** ** The sort and unique of a level *)

Section finalize_facts.
Context {cp : CostParams}.

Lemma forallb_false {A} (f : A → bool) (l : list A) :
  forallb f l = false ↔ ∃ x, x ∈ l ∧ f x = false.
Proof.
  induction l as [|a l IH]; simpl.
  - split; [done | intros (x & Hx & _); by apply elem_of_nil in Hx].
  - rewrite andb_false_iff, IH. split.
    + intros [Ha|(x & Hx & Hf)]; [exists a | exists x]; split; try done.
      * by left.
      * by right.
    + intros (x & Hx & Hf). apply elem_of_cons in Hx as [->|Hx]; [by left |].
      right. by exists x.
Qed.

Lemma shortcut_same_false a b :
  shortcut_same a b = false ↔
    source a ≠ source b ∨ destination a ≠ destination b
    ∨ ∃ j, j < dim
           ∧ (COST_ACCURACY
                < Qcabs (at_ (values (cost a)) j - at_ (values (cost b)) j))%Qc.
Proof.
  unfold shortcut_same.
  destruct (decide (source a = source b)) as [Hs|Hs];
    destruct (decide (destination a = destination b)) as [Hd|Hd];
    rewrite ?(bool_decide_eq_true_2 _ Hs), ?(bool_decide_eq_true_2 _ Hd),
      ?(bool_decide_eq_false_2 _ Hs), ?(bool_decide_eq_false_2 _ Hd); simpl.
  - rewrite forallb_false. split.
    + intros (j & Hj & Hf). right. right. exists j.
      apply elem_of_seq in Hj. split; [lia |].
      apply negb_false_iff in Hf. by apply bool_decide_eq_true in Hf.
    + intros [?|[?|(j & Hj & Hf)]]; [done | done |].
      exists j. split; [apply elem_of_seq; lia |].
      apply negb_false_iff. by apply bool_decide_eq_true.
  - split; [intros _; by right; left | done].
  - split; [intros _; by left | done].
  - split; [intros _; by left | done].
Qed.

Lemma unique_from_Sorted {A} (p : A → A → bool) prev l :
  Sorted (λ a b, p a b = false) (prev :: unique_from p prev l).
Proof.
  revert prev. induction l as [|x l IH]; intros prev; simpl.
  - by repeat constructor.
  - destruct (p prev x) eqn:Hp; [apply IH |].
    constructor; [apply IH | by constructor].
Qed.

Lemma unique_Sorted {A} (p : A → A → bool) l :
  Sorted (λ a b, p a b = false) (unique p l).
Proof. destruct l; [constructor | apply unique_from_Sorted]. Qed.

Lemma Sorted_lookup {A} (R : relation A) l i a b :
  Sorted R l → l !! i = Some a → l !! S i = Some b → R a b.
Proof.
  intros Hs. revert i. induction Hs as [|x l Hs IH Hhd]; intros i; [done |].
  destruct i as [|i]; simpl.
  - intros [= ->] Hb. destruct Hhd as [|y l' Hr]; [done |].
    simpl in Hb. by injection Hb as ->.
  - apply IH.
Qed.

Lemma unique_from_sublist {A} (p : A → A → bool) prev l :
  unique_from p prev l `sublist_of` l.
Proof.
  revert prev. induction l as [|x l IH]; intros prev; simpl; [done |].
  destruct (p prev x); [by apply sublist_cons | by apply sublist_skip].
Qed.

Lemma unique_sublist {A} (p : A → A → bool) l : unique p l `sublist_of` l.
Proof.
  destruct l; simpl; [done |]. apply sublist_skip, unique_from_sublist.
Qed.

Lemma cost_lt_loop_asym n i l r :
  cost_lt_loop n i l r = true → cost_lt_loop n i r l = false.
Proof.
  revert i. induction n as [|n IH]; intros i; simpl; [done |].
  repeat case_bool_decide; try done; [| apply IH].
  intros _. exfalso. by eapply Qclt_not_le; [| apply Qclt_le_weak].
Qed.

Lemma cost_lt_loop_spec n i l r :
  cost_lt_loop n i l r = true ↔
    ∃ j, i ≤ j < i + n
         ∧ (∀ m, i ≤ m < j → at_ (values l) m = at_ (values r) m)
         ∧ (at_ (values l) j < at_ (values r) j)%Qc.
Proof.
  revert i. induction n as [|n IH]; intros i; simpl.
  - split; [done | intros (j & ? & _); lia].
  - case_bool_decide as Hlt.
    { split; [intros _ | done]. exists i. split; [lia |].
      split; [intros m ?; lia | done]. }
    case_bool_decide as Hgt.
    { split; [done |]. intros (j & Hj & Heq & Hj').
      destruct (decide (j = i)) as [->|]; [done |].
      rewrite (Heq i) in Hgt by lia. by apply Qclt_not_eq in Hgt. }
    assert (Hi : at_ (values l) i = at_ (values r) i).
    { apply Qcle_antisym; by apply Qcnot_lt_le. }
    rewrite (IH (S i)). split.
    + intros (j & Hj & Heq & Hj'). exists j. split; [lia |].
      split; [| done]. intros m Hm.
      destruct (decide (m = i)) as [->|]; [done | apply Heq; lia].
    + intros (j & Hj & Heq & Hj').
      destruct (decide (j = i)) as [->|]; [done |].
      exists j. split; [lia |]. split; [| done]. intros m Hm. apply Heq. lia.
Qed.

Lemma shortcut_ltb_asym a b :
  shortcut_ltb a b = true → shortcut_ltb b a = false.
Proof.
  unfold shortcut_ltb. repeat case_bool_decide; try done; try lia.
  apply cost_lt_loop_asym.
Qed.

#[local] Instance not_after_shortcut_total : Total (not_after shortcut_ltb).
Proof.
  intros a b. unfold not_after.
  destruct (shortcut_ltb b a) eqn:Hba; [| by left].
  right. by apply shortcut_ltb_asym.
Qed.

(** C6, as the code has it. In the published list of a level no two
    neighbours are duplicates: two consecutive shortcuts with the same
    source and destination differ in some cost component by more than
    [COST_ACCURACY]. The list is a part of the sorted list, which is in the
    lexicographic order of [(source, dest, cost[0], ..., cost[D-1])]. *)
Theorem finalize_shortcuts_adjacent (l : list Edge) :
  (∀ i a b,
     finalize_shortcuts l !! i = Some a →
     finalize_shortcuts l !! S i = Some b →
     source a = source b → destination a = destination b →
     ∃ j, j < dim
          ∧ (COST_ACCURACY
               < Qcabs (at_ (values (cost a)) j - at_ (values (cost b)) j))%Qc)
  ∧ finalize_shortcuts l `sublist_of` sort_by shortcut_ltb l
  ∧ sort_by shortcut_ltb l ≡ₚ l
  ∧ Sorted (λ a b, shortcut_ltb b a = false) (sort_by shortcut_ltb l)
  ∧ (∀ a b, shortcut_ltb a b = true ↔
       source a < source b
       ∨ (source a = source b
          ∧ (destination a < destination b
             ∨ (destination a = destination b
                ∧ ∃ j, j < dim
                  ∧ (∀ m, m < j →
                       at_ (values (cost a)) m = at_ (values (cost b)) m)
                  ∧ (at_ (values (cost a)) j
                       < at_ (values (cost b)) j)%Qc)))).
Proof.
  split; [| split; [| split; [| split]]].
  - intros i a b Ha Hb Hs Hd.
    pose proof (Sorted_lookup _ _ _ _ _
                  (unique_Sorted shortcut_same (sort_by shortcut_ltb l))
                  Ha Hb) as Hsame.
    simpl in Hsame. apply shortcut_same_false in Hsame.
    by destruct Hsame as [?|[?|?]].
  - apply unique_sublist.
  - apply merge_sort_Permutation.
  - apply (Sorted_merge_sort (not_after shortcut_ltb)).
  - intros a b. unfold shortcut_ltb.
    repeat case_bool_decide; try (split; [intros _ | done]);
      try (split; [done | intros [?|[? [?|[? ?]]]]; lia]).
    + by left.
    + right. split; [lia |]. by left.
    + rewrite cost_lt_loop_spec. split.
      * intros (j & Hj & Heq & Hlt). right. split; [lia |]. right.
        split; [lia |]. exists j. split; [lia |]. split; [| done].
        intros m Hm. apply Heq. lia.
      * intros [?|[_ [?|[_ (j & Hj & Heq & Hlt)]]]]; [lia | lia |].
        exists j. split; [lia |]. split; [| done].
        intros m Hm. apply Heq. lia.
Qed.

End finalize_facts.

(** C6, as the claim words it, fails when [D = 2]. The three shortcuts of
    [Demo] all survive the sort and unique, each differs from its
    neighbour by [10] in the second component, and the first and the last
    of the published list are distinct shortcuts with the same source and
    destination whose costs differ by at most [COST_ACCURACY] in every
    component. *)
Lemma finalize_shortcuts_counterexample :
  let out :=
    finalize_shortcuts (cp := Demo.params)
      [Demo.near_c; Demo.near_b; Demo.near_a] in
  out = [Demo.near_a; Demo.near_b; Demo.near_c]
  ∧ Demo.near_a ≠ Demo.near_c
  ∧ source Demo.near_a = source Demo.near_c
  ∧ destination Demo.near_a = destination Demo.near_c
  ∧ ∀ j, j < dim (CostParams := Demo.params) →
      (Qcabs (at_ (values (cost Demo.near_a)) j
              - at_ (values (cost Demo.near_c)) j)
         ≤ COST_ACCURACY (CostParams := Demo.params))%Qc.
Proof.
  split; [apply (bool_decide_unpack _); by vm_compute |].
  split; [apply (bool_decide_unpack _); by vm_compute |].
  split; [done |]. split; [done |].
  intros [|[|j]] Hj; [| | simpl in Hj; lia];
    apply (bool_decide_unpack _); by vm_compute.
Qed.


(** ** reduce *)

Section reduce_facts.
Context {lext : LevelExternals}.

Lemma pair_ltb_spec a b :
  pair_ltb a b = true ↔ (a.1 < b.1)%N ∨ (a.1 = b.1 ∧ a.2 < b.2).
Proof. unfold pair_ltb. repeat case_bool_decide; lia. Qed.

Lemma pair_ltb_false a b :
  pair_ltb a b = false ↔ (b.1 < a.1)%N ∨ (a.1 = b.1 ∧ b.2 ≤ a.2).
Proof.
  rewrite <-not_true_iff_false, pair_ltb_spec. lia.
Qed.

#[local] Instance not_after_pair_total : Total (not_after pair_ltb).
Proof.
  intros a b. unfold not_after. rewrite !pair_ltb_false. lia.
Qed.

#[local] Instance not_after_pair_trans : Transitive (not_after pair_ltb).
Proof.
  intros a b c. unfold not_after. rewrite !pair_ltb_false. lia.
Qed.

Lemma pair_ltb_strict a b :
  a ≠ b → pair_ltb b a = false → pair_ltb a b = true.
Proof.
  destruct a as [sa pa], b as [sb pb]. intros Hne.
  rewrite pair_ltb_false, pair_ltb_spec. simpl. intros [?|[-> ?]]; [by left |].
  right. split; [done |]. destruct (decide (pa = pb)) as [->|]; [done | lia].
Qed.

Lemma metric_length (S : gset NodePos) g :
  length ((λ p, (score g p, p)) <$> merge_sort (≤) (elements S)) = size S.
Proof. by rewrite length_fmap, merge_sort_Permutation. Qed.

Lemma metric_positions (S : gset NodePos) g :
  snd <$> ((λ p, (score g p, p)) <$> merge_sort (≤) (elements S))
  = merge_sort (≤) (elements S).
Proof. rewrite <-list_fmap_compose. apply list_fmap_id. Qed.

Lemma elem_of_metric (S : gset NodePos) g e :
  e ∈ (λ p, (score g p, p)) <$> merge_sort (≤) (elements S)
  ↔ e.2 ∈ S ∧ e = (score g e.2, e.2).
Proof.
  rewrite list_elem_of_fmap. setoid_rewrite merge_sort_Permutation.
  setoid_rewrite elem_of_elements. split.
  - by intros (p & -> & Hp).
  - intros [Hp He]. by exists e.2.
Qed.

Lemma reduce_unfold (S : gset NodePos) g :
  reduce S g
  = if decide (size S < 4) then S
    else list_to_set
           (snd <$> take (size S / 4)
              (sort_by pair_ltb
                 ((λ p, (score g p, p)) <$> merge_sort (≤) (elements S)))).
Proof.
  unfold reduce. rewrite metric_length.
  destruct (decide (size S < 4)) as [Hlt|Hge].
  - unfold nth_element. rewrite metric_length.
    rewrite decide_False by lia.
    rewrite take_ge by (rewrite metric_length; lia).
    rewrite metric_positions. apply set_eq. intros x.
    by rewrite elem_of_list_to_set, merge_sort_Permutation, elem_of_elements.
  - unfold nth_element. rewrite metric_length.
    rewrite decide_True; [done |]. apply Nat.div_lt; lia.
Qed.

Lemma reduce_prefix (S : gset NodePos) g x :
  x ∈ snd <$> take (size S / 4)
        (sort_by pair_ltb
           ((λ p, (score g p, p)) <$> merge_sort (≤) (elements S))) →
  (score g x, x)
    ∈ take (size S / 4)
        (sort_by pair_ltb
           ((λ p, (score g p, p)) <$> merge_sort (≤) (elements S)))
  ∧ x ∈ S.
Proof.
  intros (e & -> & He)%list_elem_of_fmap.
  assert (He' : e ∈ (λ p, (score g p, p)) <$> merge_sort (≤) (elements S)).
  { rewrite <-(merge_sort_Permutation (not_after pair_ltb)).
    eapply elem_of_sublist; [done | apply sublist_take]. }
  apply elem_of_metric in He' as [HS Heq]. by rewrite <-Heq.
Qed.

Lemma reduce_subseteq (S : gset NodePos) g : reduce S g ⊆ S.
Proof.
  rewrite reduce_unfold. destruct (decide _); [done |]. intros x Hx.
  apply elem_of_list_to_set in Hx. exact (proj2 (reduce_prefix S g x Hx)).
Qed.

Lemma reduce_small (S : gset NodePos) g : size S < 4 → reduce S g = S.
Proof. intros Hlt. rewrite reduce_unfold. by rewrite decide_True. Qed.

Lemma reduce_size (S : gset NodePos) g :
  4 ≤ size S → size (reduce S g) = size S / 4.
Proof.
  intros Hge. rewrite reduce_unfold, decide_False by lia.
  rewrite size_list_to_set.
  - rewrite length_fmap, length_take_le; [done |].
    unfold sort_by. rewrite merge_sort_Permutation, metric_length.
    apply Nat.Div0.div_le_upper_bound. lia.
  - rewrite fmap_take. eapply sublist_NoDup; [| apply sublist_take].
    unfold sort_by. rewrite merge_sort_Permutation, metric_positions.
    rewrite merge_sort_Permutation. apply NoDup_elements.
Qed.

Lemma reduce_order (S : gset NodePos) g x y :
  4 ≤ size S → x ∈ reduce S g → y ∈ S → y ∉ reduce S g →
  pair_ltb (score g x, x) (score g y, y) = true.
Proof.
  intros Hge. rewrite reduce_unfold, decide_False by lia.
  set (sorted := sort_by pair_ltb _). intros Hx Hy Hny.
  apply elem_of_list_to_set, reduce_prefix in Hx as [Hx HxS].
  fold sorted in Hx.
  assert (Hyd : (score g y, y) ∈ drop (size S / 4) sorted).
  { assert (Hys : (score g y, y) ∈ sorted).
    { unfold sorted, sort_by. rewrite merge_sort_Permutation.
      by apply elem_of_metric. }
    rewrite <-(take_drop (size S / 4) sorted) in Hys.
    apply elem_of_app in Hys as [Hyt|]; [| done].
    destruct Hny. apply elem_of_list_to_set, list_elem_of_fmap.
    by exists (score g y, y). }
  assert (Hss : StronglySorted (not_after pair_ltb) sorted)
    by apply (StronglySorted_merge_sort (not_after pair_ltb)).
  rewrite <-(take_drop (size S / 4) sorted) in Hss.
  pose proof (StronglySorted_app_1_elem_of _ _ _ _ _ Hss Hx Hyd) as Hle.
  apply pair_ltb_strict in Hle; [done |].
  intros [= _ ->]. destruct Hny.
  apply elem_of_list_to_set, list_elem_of_fmap. by exists (score g y, y).
Qed.

(** C8. [reduce S g] is a part of [S]; it is [S] itself when [S] has fewer
    than four nodes; otherwise it has [|S| / 4] nodes, and each of them
    comes before every node of [S] left out in the order of the pairs
    (score, position): its score is not larger, and among equal scores its
    position is smaller. The score is the product of the two degrees
    (as long as that fits a [size_t]). *)
Theorem reduce_spec (S : gset NodePos) (g : Graph) :
  reduce S g ⊆ S
  ∧ (size S < 4 → reduce S g = S)
  ∧ (4 ≤ size S →
       size (reduce S g) = size S / 4
       ∧ ∀ x y, x ∈ reduce S g → y ∈ S → y ∉ reduce S g →
           (score g x ≤ score g y)%N ∧ (score g x = score g y → x < y))
  ∧ (∀ p,
       (N.of_nat (length (getIngoingEdgesOf g p)
                  * length (getOutgoingEdgesOf g p)) < 2 ^ 64)%N →
       score g p
       = N.of_nat (length (getIngoingEdgesOf g p)
                   * length (getOutgoingEdgesOf g p))).
Proof.
  split; [apply reduce_subseteq |].
  split; [apply reduce_small |].
  split.
  - intros Hge. split; [by apply reduce_size |].
    intros x y Hx Hy Hny.
    pose proof (reduce_order S g x y Hge Hx Hy Hny) as Hlt.
    apply pair_ltb_spec in Hlt. simpl in Hlt. lia.
  - intros p Hp. unfold score, SizeT.mul, SizeT.wrap, SizeT.modulus.
    rewrite N.mod_small; lia.
Qed.

Lemma sorted_nth_element_post k (l : list (N * NodePos)) :
  nth_element_post k l (sort_by pair_ltb l).
Proof.
  split; [apply merge_sort_Permutation |].
  intros i j a b Hi Hj Ha Hb.
  assert (Hss : StronglySorted (not_after pair_ltb) (sort_by pair_ltb l))
    by apply (StronglySorted_merge_sort (not_after pair_ltb)).
  rewrite <-(take_drop k (sort_by pair_ltb l)) in Hss.
  apply (StronglySorted_app_1_elem_of _ _ _ a b) in Hss; [done | |].
  - apply elem_of_take. exists i. done.
  - apply list_elem_of_lookup. exists (j - k). rewrite lookup_drop.
    by replace (k + (j - k)) with j by lia.
Qed.

Lemma nth_element_post_split k l l' a b :
  nth_element_post k l l' →
  a ∈ take k l' → b ∈ drop k l' → pair_ltb b a = false.
Proof.
  intros [_ Hpost] (i & Ha & Hi)%elem_of_take (j & Hb)%list_elem_of_lookup.
  rewrite lookup_drop in Hb.
  apply (Hpost i (k + j) a b); [done | lia | done ..].
Qed.

(** Whatever [std::nth_element] does with distinct pairs, the elements it
    leaves before position [k] are those a full sort leaves there. *)
Lemma nth_element_prefix_unique k (l l1 l2 : list (N * NodePos)) :
  NoDup l → k ≤ length l →
  nth_element_post k l l1 → nth_element_post k l l2 →
  list_to_set (C := gset (N * NodePos)) (take k l1)
  = list_to_set (take k l2).
Proof.
  intros Hnd Hk H1 H2.
  assert (Hgen : ∀ la lb,
    nth_element_post k l la → nth_element_post k l lb →
    list_to_set (C := gset (N * NodePos)) (take k la)
    ⊆ list_to_set (take k lb)).
  { intros la lb Ha Hb.
    assert (Hnda : NoDup la) by (by rewrite (proj1 Ha)).
    assert (Hndb : NoDup lb) by (by rewrite (proj1 Hb)).
    assert (Hsz : ∀ l', l' ≡ₚ l → NoDup l' →
              size (list_to_set (C := gset (N * NodePos)) (take k l')) = k).
    { intros l' Hp Hn. rewrite size_list_to_set.
      - apply length_take_le. by rewrite Hp.
      - eapply sublist_NoDup; [| apply sublist_take]. done. }
    set (Xa := list_to_set (C := gset (N * NodePos)) (take k la)).
    set (Xb := list_to_set (C := gset (N * NodePos)) (take k lb)).
    destruct (decide (Xa ⊆ Xb)) as [|Hnot]; [done |].
    exfalso.
    destruct (set_choose_or_empty (Xa ∖ Xb)) as [[a Ha']|Hempty];
      [| apply Hnot; set_solver].
    apply elem_of_difference in Ha' as [Haa Hab].
    destruct (set_choose_or_empty (Xb ∖ Xa)) as [[b Hb']|Hempty].
    - apply elem_of_difference in Hb' as [Hbb Hba].
      unfold Xa, Xb in *. rewrite elem_of_list_to_set in *.
      assert (Had : a ∈ drop k lb).
      { assert (Hin : a ∈ lb).
        { rewrite (proj1 Hb), <-(proj1 Ha).
          eapply elem_of_sublist; [done | apply sublist_take]. }
        rewrite <-(take_drop k lb) in Hin.
        by apply elem_of_app in Hin as [|]. }
      assert (Hbd : b ∈ drop k la).
      { assert (Hin : b ∈ la).
        { rewrite (proj1 Ha), <-(proj1 Hb).
          eapply elem_of_sublist; [done | apply sublist_take]. }
        rewrite <-(take_drop k la) in Hin.
        by apply elem_of_app in Hin as [|]. }
      pose proof (nth_element_post_split _ _ _ _ _ Ha Haa Hbd) as Hba'.
      pose proof (nth_element_post_split _ _ _ _ _ Hb Hbb Had) as Hab'.
      assert (Hne : a ≠ b) by (by intros ->).
      apply pair_ltb_strict in Hba'; [| done]. congruence.
    - assert (Hsub : Xb ⊆ Xa) by set_solver.
      apply set_subseteq_size_equiv in Hsub.
      + apply Hab. by apply Hsub.
      + unfold Xa, Xb.
        by rewrite (Hsz la (proj1 Ha) Hnda), (Hsz lb (proj1 Hb) Hndb). }
  apply set_eq. intros x. split; apply Hgen; done.
Qed.

(** [reduce] with any rearrangement that keeps the promise of
    [std::nth_element] in place of the sort of the model. *)
Lemma reduce_any_nth_element (S : gset NodePos) g l' :
  let metric := (λ p, (score g p, p)) <$> merge_sort (≤) (elements S) in
  let median :=
    if decide (length metric < 4) then length metric
    else length metric / 4 in
  nth_element_post median metric l' →
  list_to_set (snd <$> take median l') = reduce S g.
Proof.
  intros metric median Hpost. unfold reduce. fold metric. fold median.
  assert (Hnd : NoDup metric).
  { apply (NoDup_fmap_1 snd). unfold metric. rewrite metric_positions.
    rewrite merge_sort_Permutation. apply NoDup_elements. }
  assert (Hk : median ≤ length metric).
  { unfold median. case_decide; [done |].
    apply Nat.Div0.div_le_upper_bound. lia. }
  assert (Hmodel : nth_element_post median metric (nth_element median metric)).
  { unfold nth_element. case_decide; [apply sorted_nth_element_post |].
    split; [done |]. intros i j a b Hi Hj Ha Hb.
    apply lookup_lt_Some in Hb. lia. }
  pose proof (nth_element_prefix_unique _ _ _ _ Hnd Hk Hpost Hmodel) as Heq.
  apply set_eq. intros x. rewrite !elem_of_list_to_set, !list_elem_of_fmap.
  split; intros (e & -> & He); exists e; (split; [done |]);
    apply (elem_of_list_to_set (C := gset (N * NodePos)));
    [rewrite <-Heq | rewrite Heq]; by apply elem_of_list_to_set.
Qed.

End reduce_facts.

(** ** independentSet *)

Section independentSet_facts.
Context {lext : LevelExternals}.

Lemma mark_off_length sel hs : length (mark_off sel hs) = length sel.
Proof.
  revert sel. induction hs as [|h hs IH]; intros sel; simpl; [done |].
  unfold mark_off in IH. by rewrite IH, length_insert.
Qed.

Lemma mark_off_false sel hs w :
  sel !! w = Some false → mark_off sel hs !! w = Some false.
Proof.
  revert sel. induction hs as [|h hs IH]; intros sel Hw; simpl; [done |].
  apply IH. destruct (decide (he_end h = w)) as [->|].
  - apply list_lookup_insert_eq. by eapply lookup_lt_Some.
  - by rewrite list_lookup_insert_ne.
Qed.

Lemma mark_off_listed sel hs w :
  listed hs w → w < length sel → mark_off sel hs !! w = Some false.
Proof.
  intros (h & Hh & <-). revert sel.
  induction hs as [|h' hs IH]; intros sel Hlen; simpl.
  - by apply elem_of_nil in Hh.
  - apply elem_of_cons in Hh as [<-|Hh].
    + apply mark_off_false. by apply list_lookup_insert_eq.
    + apply IH; [done |]. by rewrite length_insert.
Qed.

Lemma neighbour_sym g u w :
  adjacency_consistent g →
  u < getNodeCount g → w < getNodeCount g →
  neighbour g u w → neighbour g w u.
Proof.
  intros Hc Hu Hw [Hin|Hout].
  - right. by apply Hc.
  - left. by apply Hc.
Qed.

Lemma sweep_step_inv g acc entry :
  adjacency_consistent g →
  sweep_inv g acc → sweep_inv g (sweep_step g acc entry).
Proof.
  intros Hc (Hlen & Hlt & Hmark & Hind). unfold sweep_step.
  destruct (acc.1 !! entry.2) as [[]|] eqn:Hsel; [| done | done].
  assert (Hpos : entry.2 < getNodeCount g).
  { rewrite <-Hlen. by eapply lookup_lt_Some. }
  split; [| split; [| split]]; simpl.
  - by rewrite !mark_off_length.
  - intros u [->%elem_of_singleton|Hu]%elem_of_union; [done | by apply Hlt].
  - intros u w [->%elem_of_singleton|Hu]%elem_of_union Hn Hw.
    + destruct Hn as [Hin|Hout].
      * apply mark_off_false, mark_off_listed; [done | lia].
      * apply mark_off_listed; [done |]. rewrite mark_off_length. lia.
    + do 2 apply mark_off_false. by eapply Hmark.
  - intros u w [->%elem_of_singleton|Hu]%elem_of_union
      [->%elem_of_singleton|Hw]%elem_of_union Hne Hn; [done | | |].
    + apply (neighbour_sym g) in Hn; [| done | done | by apply Hlt].
      specialize (Hmark _ _ Hw Hn Hpos). congruence.
    + specialize (Hmark _ _ Hu Hn Hpos). congruence.
    + exact (Hind _ _ Hu Hw Hne Hn).
Qed.

Lemma sweep_inv_foldl g es acc :
  adjacency_consistent g →
  sweep_inv g acc → sweep_inv g (foldl (sweep_step g) acc es).
Proof.
  intros Hc. revert acc. induction es as [|e es IH]; intros acc Hinv; [done |].
  simpl. by apply IH, sweep_step_inv.
Qed.

Lemma sweep_inv_start g :
  sweep_inv g (replicate (getNodeCount g) true, ∅).
Proof.
  unfold sweep_inv. simpl. split; [apply length_replicate |].
  split; [| split]; intros u; set_solver.
Qed.



Lemma independentSet_inv g :
  adjacency_consistent g →
  (∀ u, u ∈ independentSet g → u < getNodeCount g)
  ∧ (∀ u w, u ∈ independentSet g → w ∈ independentSet g → u ≠ w →
       ¬ neighbour g u w).
Proof.
  intros Hc. unfold independentSet.
  destruct (sweep_inv_foldl g
              (sort_by pair_ltb
                 ((λ i, (score g i, i)) <$> seq 0 (getNodeCount g)))
              _ Hc (sweep_inv_start g)) as (_ & Hlt & _ & Hind).
  done.
Qed.


(** C4, as far as it holds. In a graph whose two adjacency lists tell the
    same edges, no edge joins two different nodes of
    [reduce(independentSet(g), g)]; the nodes of the set are nodes of the
    graph, and [reduce] returns a part of the greedy set. *)
Theorem reduce_independentSet_independent g u v :
  adjacency_consistent g →
  u ∈ reduce (independentSet g) g →
  v ∈ reduce (independentSet g) g →
  u ≠ v →
  ¬ edge_of g u v
  ∧ u < getNodeCount g ∧ v < getNodeCount g
  ∧ reduce (independentSet g) g ⊆ independentSet g.
Proof.
  intros Hc Hu Hv Hne.
  pose proof (reduce_subseteq (independentSet g) g) as Hsub.
  destruct (independentSet_inv g Hc) as (Hlt & Hind).
  apply Hsub in Hu, Hv.
  split; [| by auto].
  intros [Hout|Hin].
  - apply (Hind u v); [done .. |]. by right.
  - apply (Hind v u); [done | done | done |]. by left.
Qed.

Lemma listedb_listed hs v : listedb hs v = true ↔ listed hs v.
Proof.
  unfold listedb, listed. rewrite existsb_exists. split.
  - intros (h & Hh%list_elem_of_In & Hv%bool_decide_eq_true). by exists h.
  - intros (h & Hh & Hv). exists h.
    split; [by apply list_elem_of_In | by apply bool_decide_eq_true].
Qed.

Lemma adjacency_consistentb_sound g :
  adjacency_consistentb g = true → adjacency_consistent g.
Proof.
  unfold adjacency_consistentb. rewrite forallb_forall. intros Hall u v Hu Hv.
  specialize (Hall u). rewrite forallb_forall in Hall.
  assert (Hin : ∀ k, k < getNodeCount g → In k (seq 0 (getNodeCount g))).
  { intros k Hk. apply list_elem_of_In, elem_of_seq. lia. }
  specialize (Hall (Hin u Hu) v (Hin v Hv)).
  apply bool_decide_eq_true in Hall.
  by rewrite <-!listedb_listed, Hall.
Qed.

End independentSet_facts.

Section independentSet_demo.

Lemma reduce_independentSet_independent_witness :
  let g := DemoLevel.graph in
  let L := DemoLevel.level Demo.reg in
  adjacency_consistent (lext := L) g
  ∧ reduce (lext := L) (independentSet (lext := L) g) g = {[ 0; 2 ]}
  ∧ ¬ edge_of (lext := L) g 0 2.
Proof.
  intros g L.
  assert (Hc : adjacency_consistent (lext := L) g)
    by (by apply adjacency_consistentb_sound; vm_compute).
  assert (Hset : reduce (lext := L) (independentSet (lext := L) g) g
                 = {[ 0; 2 ]})
    by (by apply (bool_decide_unpack _); vm_compute).
  split; [done |]. split; [done |].
  apply (reduce_independentSet_independent (lext := L) g 0 2);
    [done | rewrite Hset; set_solver | rewrite Hset; set_solver | done].
Defined.

(** C4, as the claim words it, fails on a graph with an edge from a node to
    itself: the greedy sweep marks the node off and selects it all the same,
    [reduce] keeps the whole set, and the edge has both its endpoints in
    the returned set. *)
Lemma reduce_independentSet_loop_counterexample :
  let g := DemoLevel.loop_graph in
  let L := DemoLevel.level DemoLevel.loop_reg in
  getNodeCount g = 1
  ∧ adjacency_consistent (lext := L) g
  ∧ reduce (lext := L) (independentSet (lext := L) g) g = {[ 0 ]}
  ∧ edge_of (lext := L) g 0 0.
Proof.
  intros g L. split; [done |].
  split; [by apply adjacency_consistentb_sound; vm_compute |].
  split; [by apply (bool_decide_unpack _); vm_compute |].
  left. apply listedb_listed. by vm_compute.
Qed.

End independentSet_demo.

(** ** contract and contractCompletely *)

Section contract_facts.
Context {cp : CostParams} {lext : LevelExternals}.









End contract_facts.

Section contract_demo.
#[local] Existing Instance Demo.params.


End contract_demo.
